(** * Hybrid-entropy random number generator for ESP32 (sketch_gpsc.ino)

    A shallow embedding of the conditioning pipeline of the sketch
    (hybrid bit source, von Neumann corrector, bit accumulator, SHA-256
    conditioner and driver loop) together with the properties that the
    design document states about it.

    The globals of the sketch are the fields of [State]; every function of
    the sketch is a computation in a state-and-fault monad [M].  Calls that
    leave the sketch (the hash library, the serial port, the delays) are
    recorded in order in the field [world], each with the value that the
    fill counter and the entropy buffer had when the call was made. *)

From Stdlib Require Import ZArith List Ascii String Bool Lia.
From stdpp Require Import base list.

Import ListNotations.
Local Open Scope Z_scope.

(** ** Configuration *)

Definition ADC_NOISE_PIN : Z := 36.
Definition BUFFER_BITS : Z := 256.

(** [sizeof(entropyBuffer)]: the array is declared with [BUFFER_BITS / 8]
    elements of one byte. *)
Definition sizeof_entropyBuffer : Z := BUFFER_BITS / 8.

(** Width of [size_t] and of [uint32_t] on the ESP32. *)
Definition UINT32_MOD : Z := 2 ^ 32.
Definition UINT8_MOD : Z := 2 ^ 8.

(** ** Calls that leave the sketch *)

Inductive call : Type :=
| Sha256 (input digest : list Z)
| SerialWrite (bytes : list ascii)
| SerialFlush
| Delay (ms : Z)
| DelayMicroseconds (us : Z).

Record observation : Type := mkObservation {
  what : call;
  seen_collectedBits : Z;
  seen_entropyBuffer : list Z
}.

(** ** Globals *)

Record State : Type := mkState {
  entropyBuffer : list Z;
  collectedBits : Z;
  lastBit : bool;
  hasLastBit : bool;
  adcSeed : Z;
  world : list observation
}.

Definition initial_state : State :=
  {| entropyBuffer := replicate (Z.to_nat sizeof_entropyBuffer) 0;
     collectedBits := 0;
     lastBit := false;
     hasLastBit := false;
     adcSeed := 0;
     world := [] |}.

Definition with_entropyBuffer (v : list Z) (s : State) : State :=
  {| entropyBuffer := v; collectedBits := collectedBits s;
     lastBit := lastBit s; hasLastBit := hasLastBit s;
     adcSeed := adcSeed s; world := world s |}.

Definition with_collectedBits (v : Z) (s : State) : State :=
  {| entropyBuffer := entropyBuffer s; collectedBits := v;
     lastBit := lastBit s; hasLastBit := hasLastBit s;
     adcSeed := adcSeed s; world := world s |}.

Definition with_lastBit (v : bool) (s : State) : State :=
  {| entropyBuffer := entropyBuffer s; collectedBits := collectedBits s;
     lastBit := v; hasLastBit := hasLastBit s;
     adcSeed := adcSeed s; world := world s |}.

Definition with_hasLastBit (v : bool) (s : State) : State :=
  {| entropyBuffer := entropyBuffer s; collectedBits := collectedBits s;
     lastBit := lastBit s; hasLastBit := v;
     adcSeed := adcSeed s; world := world s |}.

Definition with_adcSeed (v : Z) (s : State) : State :=
  {| entropyBuffer := entropyBuffer s; collectedBits := collectedBits s;
     lastBit := lastBit s; hasLastBit := hasLastBit s;
     adcSeed := v; world := world s |}.

Definition with_world (v : list observation) (s : State) : State :=
  {| entropyBuffer := entropyBuffer s; collectedBits := collectedBits s;
     lastBit := lastBit s; hasLastBit := hasLastBit s;
     adcSeed := adcSeed s; world := v |}.

(** ** The monad of the sketch: state, and [None] for undefined behaviour
    (a store outside an array, a read of a local that was never written). *)

Definition M (A : Type) : Type := State -> option (A * State).

Definition ret {A} (a : A) : M A := fun s => Some (a, s).

Definition bind {A B} (m : M A) (k : A -> M B) : M B :=
  fun s => match m s with
           | Some (a, s') => k a s'
           | None => None
           end.

Definition gets {A} (f : State -> A) : M A := fun s => Some (f s, s).

Definition modify (f : State -> State) : M unit := fun s => Some (tt, f s).

Declare Scope sketch_scope.
Delimit Scope sketch_scope with sketch.
Notation "x <- c ;; k" := (bind c (fun x => k))
  (at level 100, c at next level, right associativity) : sketch_scope.
Notation "c ;; k" := (bind c (fun _ => k))
  (at level 100, right associativity) : sketch_scope.
Local Open Scope sketch_scope.

(** [for (int i = lo; i < lo + n; i++) body(i)] *)
Fixpoint for_loop (n : nat) (i : Z) (body : Z -> M unit) : M unit :=
  match n with
  | O => ret tt
  | S n' => body i ;; for_loop n' (i + 1) body
  end.

(** An outgoing call, recorded with the globals as they are at the call. *)
Definition observe (s : State) (c : call) : observation :=
  {| what := c;
     seen_collectedBits := collectedBits s;
     seen_entropyBuffer := entropyBuffer s |}.

Definition call_out (c : call) : M unit :=
  modify (fun s => with_world (world s ++ [observe s c]) s).

(** [entropyBuffer[i]] as an rvalue and as the target of a store; an index
    outside the array is undefined behaviour. *)
Definition in_bounds (i : Z) (buf : list Z) : bool :=
  (0 <=? i) && (i <? Z.of_nat (length buf)).

Definition load_entropyBuffer (i : Z) : M Z :=
  fun s => if in_bounds i (entropyBuffer s)
    then Some (nth (Z.to_nat i) (entropyBuffer s) 0, s)
    else None.

Definition store_entropyBuffer (i v : Z) : M unit :=
  fun s => if in_bounds i (entropyBuffer s)
    then Some (tt, with_entropyBuffer (<[Z.to_nat i := v]> (entropyBuffer s)) s)
    else None.

(** [memset(entropyBuffer, c, n)]: the first [n] bytes become [c]. *)
Definition memset_entropyBuffer (c n : Z) : M unit :=
  fun s => if (0 <=? n) && (n <=? Z.of_nat (length (entropyBuffer s)))
    then Some (tt, with_entropyBuffer
                     (replicate (Z.to_nat n) (c mod UINT8_MOD)
                        ++ drop (Z.to_nat n) (entropyBuffer s)) s)
    else None.

(** ** 1. Hybrid entropy source

    [adcRaw] is what [analogRead(ADC_NOISE_PIN)] returned and [hwRandom]
    what [esp_random()] returned in this call. *)
Definition readHybridNoiseBit (adcRaw hwRandom : Z) : M bool :=
  seed <- gets adcSeed ;;
  let seed' := Z.lor (Z.shiftl seed 1 mod UINT32_MOD) (Z.land adcRaw 1) in
  modify (with_adcSeed seed') ;;
  let mixed := Z.lxor seed' hwRandom in
  ret (negb (Z.land mixed 1 =? 0)).

(** ** 2. Von Neumann corrector

    [outputBit] is the content of the referenced variable on entry
    ([None] when it was never written); the second component of the
    result is its content on return. *)
Definition vonNeumannCorrector (currentBit : bool) (outputBit : option bool)
  : M (bool * option bool) :=
  h <- gets hasLastBit ;;
  if negb h then
    modify (with_lastBit currentBit) ;;
    modify (with_hasLastBit true) ;;
    ret (false, outputBit)
  else
    modify (with_hasLastBit false) ;;
    l <- gets lastBit ;;
    if negb (Bool.eqb l currentBit) then
      ret (true, Some currentBit)
    else
      ret (false, outputBit).

(** ** 3. Packing bits into the buffer *)
Definition packBitIntoBuffer (bit : bool) : M unit :=
  n <- gets collectedBits ;;
  let byteIndex := n / 8 in
  let bitIndex := n mod 8 in
  (if bit then
     old <- load_entropyBuffer byteIndex ;;
     store_entropyBuffer byteIndex
       (Z.lor old (Z.shiftl 1 bitIndex) mod UINT8_MOD)
   else ret tt) ;;
  modify (with_collectedBits ((n + 1) mod UINT32_MOD)).

(** ** The serial port, the delays and [sprintf]

    [Serial], [delay], [delayMicroseconds] and [sprintf] belong to the
    Arduino core and the C library, which are not among the sources. *)

Definition char_of_code (c : Z) : ascii := ascii_of_nat (Z.to_nat c).

(** Modelled from the spec: [Print::println] is part of the Arduino core.
    Section 6 of the design document has every block terminated by a line
    break; the core sends it as carriage return and line feed. *)
Definition Print_println_terminator : list ascii :=
  [char_of_code 13; char_of_code 10].

Definition HEX : Z := 16.

(** [c < 10 ? c + '0' : c + 'A' - 10] *)
Definition digit_char (c : Z) : ascii :=
  if c <? 10 then char_of_code (c + 48) else char_of_code (c + 65 - 10).

(** Modelled from the spec: [Print::printNumber] is part of the Arduino
    core.  Section 6 of the design document has upper-case hexadecimal
    digits, the most significant first; the core gets them from a
    do-while loop that peels off the least significant digit and stores
    it in front of the digits found so far.  Its buffer has room for
    [8 * sizeof(unsigned long)] digits, which is the fuel given in
    [printNumber]. *)
Fixpoint printNumber_loop (fuel : nat) (n base : Z) (str : list ascii)
  : list ascii :=
  match fuel with
  | O => str
  | S fuel' =>
      let c := n mod base in
      let n' := n / base in
      let str' := digit_char c :: str in
      if n' =? 0 then str' else printNumber_loop fuel' n' base str'
  end.

Definition printNumber (n base : Z) : list ascii :=
  let base := if base <? 2 then 10 else base in
  printNumber_loop 32 n base [].

Definition Serial_write (bytes : list ascii) : M unit :=
  call_out (SerialWrite bytes).

(** [Serial.print] of a C string literal *)
Definition Serial_print (s : string) : M unit :=
  Serial_write (list_ascii_of_string s).

(** [Serial.print(unsigned char, int)] *)
Definition Serial_print_base (b base : Z) : M unit :=
  if base =? 0 then Serial_write [char_of_code b]
  else Serial_write (printNumber b base).

(** [Serial.println()] *)
Definition Serial_println : M unit :=
  Serial_write Print_println_terminator.

Definition Serial_flush : M unit := call_out SerialFlush.
Definition delay (ms : Z) : M unit := call_out (Delay ms).
Definition delayMicroseconds (us : Z) : M unit :=
  call_out (DelayMicroseconds us).

(** A [char] array on the stack: a cell is [None] until it is written. *)
Abbreviation chars := (list (option ascii)).

Definition NUL : ascii := char_of_code 0.

(** Modelled from the spec: [sprintf] is part of the C library.  The
    conversion [%02X] of an unsigned value gives what section 6 of the
    design document asks for: upper-case hexadecimal, padded with zeros
    on the left to at least two digits. *)
Definition format_02X (v : Z) : list ascii :=
  let ds := printNumber_loop 32 v 16 [] in
  replicate (2 - length ds)%nat (digit_char 0) ++ ds.

(** Store [cs] in [buf] from index [pos] on; [None] outside the array. *)
Fixpoint store_chars (buf : chars) (pos : nat) (cs : list ascii)
  : option chars :=
  match cs with
  | [] => Some buf
  | c :: cs' =>
      if (pos <? length buf)%nat
      then store_chars (<[pos := Some c]> buf) (S pos) cs'
      else None
  end.

(** [sprintf(&buf[pos], "%02X", v)]: the digits and a terminating NUL are
    stored, the number of digits is returned. *)
Definition sprintf_02X (buf : chars) (pos : Z) (v : Z) : option (chars * Z) :=
  if pos <? 0 then None else
  let ds := format_02X v in
  match store_chars buf (Z.to_nat pos) (ds ++ [NUL]) with
  | Some buf' => Some (buf', Z.of_nat (length ds))
  | None => None
  end.

(** The C string that starts at [buf[0]]: the characters before the first
    NUL; [None] when an unwritten cell or the end of the array comes
    first. *)
Fixpoint c_str (buf : chars) : option (list ascii) :=
  match buf with
  | [] => None
  | None :: _ => None
  | Some c :: rest =>
      if Ascii.eqb c NUL then Some []
      else match c_str rest with
           | Some cs => Some (c :: cs)
           | None => None
           end
  end.

Definition lift {A} (o : option A) : M A :=
  fun s => match o with Some a => Some (a, s) | None => None end.

(** [Serial.println] of a C string: the string, then the line break. *)
Definition Serial_println_str (buf : chars) : M unit :=
  cs <- lift (c_str buf) ;;
  Serial_write cs ;;
  Serial_println.

(** [for (int i = 0; i < n; i++)] over a body that updates locals [L]. *)
Fixpoint for_locals {L} (n : nat) (i : Z) (body : Z -> L -> M L) (l : L)
  : M L :=
  match n with
  | O => ret l
  | S n' => l' <- body i l ;; for_locals n' (i + 1) body l'
  end.

(** ** SHA-256

    Modelled from the spec: the hash is computed by the mbedtls library,
    which is not among the sources; section 4.4 of the design document has
    a single-pass cryptographic hash with a digest of 256 bits.  Every
    property below is proved for an arbitrary function in its place.
    Where a concrete run is evaluated, that function is SHA-256 as
    FIPS 180-4 defines it. *)

Module SHA256.

(** The constants of the standard are the first 32 bits of the fractional
    parts of the square roots (initial hash value) and of the cube roots
    (round constants) of the first primes. *)
Definition is_prime (n : Z) : bool :=
  forallb (fun d => negb (n mod d =? 0))
          (map Z.of_nat (seq 2 (Z.to_nat n - 2))).

Definition primes : list Z :=
  List.filter is_prime (map Z.of_nat (seq 2 310)).

(** The largest [r] below [2 ^ bits] with [r ^ k <= n], found bit by bit. *)
Fixpoint root_bits (k : Z) (bits : nat) (n r : Z) : Z :=
  match bits with
  | O => r
  | S bits' =>
      let r' := r + 2 ^ Z.of_nat bits' in
      root_bits k bits' n (if r' ^ k <=? n then r' else r)
  end.

Definition fractional_root (k p : Z) : Z :=
  root_bits k 48 (p * 2 ^ (32 * k)) 0 mod UINT32_MOD.

Definition K : list Z := Eval vm_compute in map (fractional_root 3) primes.

Definition H0 : list Z :=
  Eval vm_compute in map (fractional_root 2) (take 8 primes).

Definition add32 (x y : Z) : Z := (x + y) mod UINT32_MOD.
Definition not32 (x : Z) : Z := Z.lxor x (UINT32_MOD - 1).
Definition rotr (n x : Z) : Z :=
  Z.lor (Z.shiftr x n) (Z.shiftl x (32 - n) mod UINT32_MOD).

Definition Ch (x y z : Z) : Z :=
  Z.lxor (Z.land x y) (Z.land (not32 x) z).
Definition Maj (x y z : Z) : Z :=
  Z.lxor (Z.lxor (Z.land x y) (Z.land x z)) (Z.land y z).
Definition Sigma0 (x : Z) : Z :=
  Z.lxor (Z.lxor (rotr 2 x) (rotr 13 x)) (rotr 22 x).
Definition Sigma1 (x : Z) : Z :=
  Z.lxor (Z.lxor (rotr 6 x) (rotr 11 x)) (rotr 25 x).
Definition sigma0 (x : Z) : Z :=
  Z.lxor (Z.lxor (rotr 7 x) (rotr 18 x)) (Z.shiftr x 3).
Definition sigma1 (x : Z) : Z :=
  Z.lxor (Z.lxor (rotr 17 x) (rotr 19 x)) (Z.shiftr x 10).

(** Big-endian words of a byte sequence, and back. *)
Fixpoint words (bytes : list Z) : list Z :=
  match bytes with
  | b0 :: b1 :: b2 :: b3 :: rest =>
      (((b0 * 256 + b1) * 256 + b2) * 256 + b3) :: words rest
  | _ => []
  end.

Definition bytes_of_word (w : Z) : list Z :=
  [Z.shiftr w 24 mod 256; Z.shiftr w 16 mod 256;
   Z.shiftr w 8 mod 256; w mod 256].

(** The message followed by the bit 1, zeros, and its length in bits as
    a 64-bit number, up to a multiple of 64 bytes. *)
Definition pad (msg : list Z) : list Z :=
  let len := Z.of_nat (length msg) in
  let zeros := Z.to_nat ((55 - len) mod 64) in
  msg ++ [0x80] ++ replicate zeros 0
      ++ bytes_of_word (Z.shiftr (8 * len) 32 mod UINT32_MOD)
      ++ bytes_of_word ((8 * len) mod UINT32_MOD).

(** The message schedule, most recent word first. *)
Fixpoint schedule (n : nat) (rev_w : list Z) : list Z :=
  match n with
  | O => rev_w
  | S n' =>
      let w := add32 (add32 (sigma1 (nth 1 rev_w 0)) (nth 6 rev_w 0))
                     (add32 (sigma0 (nth 14 rev_w 0)) (nth 15 rev_w 0)) in
      schedule n' (w :: rev_w)
  end.

Definition round (h : list Z) (kw : Z * Z) : list Z :=
  match h with
  | [a; b; c; d; e; f; g; hh] =>
      let t1 := add32 (add32 (add32 hh (Sigma1 e)) (Ch e f g))
                      (add32 (fst kw) (snd kw)) in
      let t2 := add32 (Sigma0 a) (Maj a b c) in
      [add32 t1 t2; a; b; c; add32 d t1; e; f; g]
  | _ => h
  end.

Definition compress (h : list Z) (block : list Z) : list Z :=
  let w := rev (schedule 48 (rev (words block))) in
  let h' := fold_left round (combine K w) h in
  map (fun p => add32 (fst p) (snd p)) (combine h h').

Fixpoint blocks (n : nat) (h : list Z) (bytes : list Z) : list Z :=
  match n with
  | O => h
  | S n' => blocks n' (compress h (take 64 bytes)) (drop 64 bytes)
  end.

Definition sha256 (msg : list Z) : list Z :=
  let padded := pad msg in
  flat_map bytes_of_word (blocks (length padded / 64) H0 padded).

End SHA256.

(** [uint8_t digest[32]] once [mbedtls_sha256_finish] has filled it from
    the bytes [out]: 32 cells of one byte each. *)
Definition digest_array (out : list Z) : list Z :=
  map (fun i => nth i out 0 mod UINT8_MOD) (seq 0 32).

(** ** 4. SHA-256 and output, 5. driver loop (sketch_gpsc.ino) *)

Module Sketch.
Section WithHash.

(** The bytes that [mbedtls_sha256_init], [_starts(ctx, 0)], [_update],
    [_finish] and [_free] produce for the bytes given to [_update]. *)
Variable mbedtls_sha256 : list Z -> list Z.

(** Lines 80 to 84: the digest in hexadecimal, then the line break. *)
Definition print_digest (digest : list Z) : M unit :=
  for_loop 32 0 (fun i =>
    let d := nth (Z.to_nat i) digest 0 in
    (if d <? 16 then Serial_print "0" else ret tt) ;;
    Serial_print_base d HEX) ;;
  Serial_println.

Definition hashAndOutput : M unit :=
  n <- gets collectedBits ;;
  if n <? BUFFER_BITS then ret tt else
  buf <- gets entropyBuffer ;;
  let input := take (Z.to_nat sizeof_entropyBuffer) buf in
  let digest := digest_array (mbedtls_sha256 input) in
  call_out (Sha256 input digest) ;;
  print_digest digest ;;
  modify (with_collectedBits 0) ;;
  memset_entropyBuffer 0 sizeof_entropyBuffer.

(** The body of [loop] once the raw bit is known.  The result is the
    bit that this iteration pushed into the buffer, if any; the sketch
    itself returns nothing. *)
Definition loop_on (rawBit : bool) : M (option bool) :=
  r <- vonNeumannCorrector rawBit None ;;
  pushed <- (if fst r then
               correctedBit <- lift (snd r) ;;
               packBitIntoBuffer correctedBit ;;
               hashAndOutput ;;
               ret (Some correctedBit)
             else ret None) ;;
  delayMicroseconds 50 ;;
  ret pushed.

Definition loop (adcRaw hwRandom : Z) : M (option bool) :=
  rawBit <- readHybridNoiseBit adcRaw hwRandom ;;
  loop_on rawBit.

(** The driver fed with a sequence of raw bits; the result lists the
    bits that were pushed, in order. *)
Fixpoint drive (raws : list bool) : M (list bool) :=
  match raws with
  | [] => ret []
  | r :: raws' =>
      p <- loop_on r ;;
      ps <- drive raws' ;;
      ret (match p with Some b => b :: ps | None => ps end)
  end.

End WithHash.
End Sketch.

(** ** 4. SHA-256 and output in the second variant of the sketch, which
    builds the whole line in memory before it is sent *)

Module Variant.
Section WithHash.

Variable mbedtls_sha256 : list Z -> list Z.

(** Lines 82 to 91. *)
Definition print_digest (digest : list Z) : M unit :=
  let outputBuffer : chars := replicate 65 None in
  let pos := 0 in
  r <- for_locals 32 0 (fun i '(outputBuffer, pos) =>
         w <- lift (sprintf_02X outputBuffer pos
                      (nth (Z.to_nat i) digest 0)) ;;
         ret (fst w, pos + snd w)) (outputBuffer, pos) ;;
  outputBuffer <- lift (store_chars (fst r) 64 [NUL]) ;;
  Serial_println_str outputBuffer.

Definition hashAndOutput : M unit :=
  n <- gets collectedBits ;;
  if n <? BUFFER_BITS then ret tt else
  buf <- gets entropyBuffer ;;
  let input := take (Z.to_nat sizeof_entropyBuffer) buf in
  let digest := digest_array (mbedtls_sha256 input) in
  call_out (Sha256 input digest) ;;
  Serial_flush ;;
  delay 10 ;;
  print_digest digest ;;
  modify (with_collectedBits 0) ;;
  memset_entropyBuffer 0 sizeof_entropyBuffer.

(** The body of [loop] of this variant once the raw bit is known; the
    result is the bit that the iteration pushed, if any.  The static
    local [lastOutputTime] of the variant is never read or written. *)
Definition loop_on (rawBit : bool) : M (option bool) :=
  r <- vonNeumannCorrector rawBit None ;;
  if fst r then
    correctedBit <- lift (snd r) ;;
    packBitIntoBuffer correctedBit ;;
    hashAndOutput ;;
    delayMicroseconds 100 ;;
    ret (Some correctedBit)
  else ret None.

Definition loop (adcRaw hwRandom : Z) : M (option bool) :=
  rawBit <- readHybridNoiseBit adcRaw hwRandom ;;
  loop_on rawBit.

(** The driver of this variant fed with a sequence of raw bits. *)
Fixpoint drive (raws : list bool) : M (list bool) :=
  match raws with
  | [] => ret []
  | r :: raws' =>
      p <- loop_on r ;;
      ps <- drive raws' ;;
      ret (match p with Some b => b :: ps | None => ps end)
  end.

End WithHash.
End Variant.

(** ** What the serial port has received *)

Definition serial_bytes (c : call) : list ascii :=
  match c with
  | SerialWrite bytes => bytes
  | _ => []
  end.

Definition serial_stream (w : list observation) : list ascii :=
  flat_map (fun o => serial_bytes (what o)) w.

Definition is_serial (c : call) : bool :=
  match c with SerialWrite _ => true | _ => false end.

Definition is_sha256 (c : call) : bool :=
  match c with Sha256 _ _ => true | _ => false end.

Definition is_line_break (c : call) : bool :=
  match c with
  | SerialWrite bytes =>
      if List.list_eq_dec Ascii.ascii_dec bytes Print_println_terminator
      then true else false
  | _ => false
  end.

Definition count_calls (p : call -> bool) (w : list observation) : nat :=
  length (List.filter (fun o => p (what o)) w).

(** ** Observing the corrector *)

(** The bit that a call of [vonNeumannCorrector] hands to its caller: the
    content of [outputBit] when the call returned [true], nothing
    otherwise. *)
Definition emitted (r : bool * option bool) : option bool :=
  if fst r then snd r else None.

(** The bits still waiting in the corrector for a partner. *)
Definition pending (s : State) : list bool :=
  if hasLastBit s then [lastBit s] else [].

(** Two consecutive calls, on the bits of one pair. *)
Definition feed_pair (first second : bool) : M (option bool * option bool) :=
  r1 <- vonNeumannCorrector first None ;;
  r2 <- vonNeumannCorrector second None ;;
  ret (emitted r1, emitted r2).

(** One call per raw bit; the result lists what each call emitted. *)
Fixpoint feed (raws : list bool) : M (list (option bool)) :=
  match raws with
  | [] => ret []
  | b :: raws' =>
      r <- vonNeumannCorrector b None ;;
      rs <- feed raws' ;;
      ret (emitted r :: rs)
  end.

(** The raw bits that have not yet been paired off: the last one when
    their number is odd. *)
Definition unpaired (raws : list bool) : list bool :=
  drop (2 * (length raws / 2))%nat raws.

(** ** Calls in a row *)

(** The state after the outgoing calls [cs], made one after the other
    with no store to a global in between. *)
Definition after_calls (cs : list call) (s : State) : State :=
  with_world (world s ++ map (observe s) cs) s.

(** The observations that a run added to [before]. *)
Definition added (before after : list observation) : list observation :=
  drop (length before) after.

(** The bytes that the output loops read from [digest]. *)
Definition digest_cells (digest : list Z) : list Z :=
  map (fun i => nth i digest 0) (seq 0 32).

(** The serial calls of [Sketch.print_digest]: per byte an optional ["0"]
    and the number, then the line break. *)
Definition byte_calls (d : Z) : list call :=
  (if d <? 16 then [SerialWrite (list_ascii_of_string "0")] else [])
    ++ [SerialWrite (printNumber d HEX)].

Definition sketch_print_calls (digest : list Z) : list call :=
  flat_map byte_calls (digest_cells digest)
    ++ [SerialWrite Print_println_terminator].

(** The serial calls of [Variant.print_digest]: the line, then the line
    break. *)
Definition variant_print_calls (digest : list Z) : list call :=
  [SerialWrite (flat_map format_02X (digest_cells digest));
   SerialWrite Print_println_terminator].

(** ** The output format as the design document words it *)

(** A value below 16 as one upper-case hexadecimal digit. *)
Definition hex_upper_digit (n : Z) : ascii :=
  nth (Z.to_nat n) (list_ascii_of_string "0123456789ABCDEF") "?"%char.

(** Two digits per byte, most significant nibble first. *)
Definition hex_of_byte (b : Z) : list ascii :=
  [hex_upper_digit (b / 16); hex_upper_digit (b mod 16)].

(** The bytes in their own order, with nothing between them. *)
Definition hex_of_digest (digest : list Z) : list ascii :=
  flat_map hex_of_byte digest.

Definition is_byte (b : Z) : Prop := 0 <= b < 256.

Definition same_chars (x y : list ascii) : bool :=
  if List.list_eq_dec Ascii.ascii_dec x y then true else false.

Definition is_hex_upper (c : ascii) : Prop :=
  In c (list_ascii_of_string "0123456789ABCDEF").


(** The outgoing calls of [hashAndOutput] on a full buffer. *)
Definition sketch_calls (sha : list Z -> list Z) (s : State) : list call :=
  let input := take 32 (entropyBuffer s) in
  let digest := digest_array (sha input) in
  Sha256 input digest :: sketch_print_calls digest.

Definition variant_calls (sha : list Z -> list Z) (s : State) : list call :=
  let input := take 32 (entropyBuffer s) in
  let digest := digest_array (sha input) in
  Sha256 input digest :: SerialFlush :: Delay 10 :: variant_print_calls digest.

(** The two stores that end [hashAndOutput]. *)
Definition reset_buffer (s : State) : State :=
  with_entropyBuffer (replicate 32 0 ++ drop 32 (entropyBuffer s))
    (with_collectedBits 0 s).

(** The buffer right after the 256th push of the run 0,1,1,0,0,1,1,0,...:
    every byte is 01010101 in binary. *)
Definition full_state : State :=
  with_collectedBits 256 (with_entropyBuffer (replicate 32 85) initial_state).

(** ** Order of the emission and the reset *)

(** Every write to the serial port that a run added was made with the
    fill counter and the buffer already reset. *)
Definition reset_precedes_emission (before after : State) : Prop :=
  forall o, In o (added (world before) (world after)) ->
            is_serial (what o) = true ->
            seen_collectedBits o = 0 /\
            seen_entropyBuffer o = replicate 32 0.

(** Every outgoing call that a run added, the writes to the serial port
    among them, was made with the fill counter and the buffer as they
    were on entry; the reset is in place on return. *)
Definition emission_precedes_reset (before after : State) : Prop :=
  (forall o, In o (added (world before) (world after)) ->
             seen_collectedBits o = collectedBits before /\
             seen_entropyBuffer o = entropyBuffer before) /\
  collectedBits after = 0 /\
  entropyBuffer after = replicate 32 0.

(** The first call that a run added is the hash of the 32 bytes of the
    buffer; the calls after it send that digest and the line break. *)
Definition hash_precedes_emission (sha : list Z -> list Z)
    (before after : State) : Prop :=
  let input := take 32 (entropyBuffer before) in
  let digest := digest_array (sha input) in
  exists rest,
    map what (added (world before) (world after))
    = Sha256 input digest :: rest /\
    flat_map serial_bytes rest = hex_of_digest digest ++ Print_println_terminator.

(** ** Observing the buffer *)

(** Bit [i] of the buffer in the packing of the design document: byte
    [i / 8], bit position [i mod 8], least significant bit first. *)
Definition buffer_bit (buf : list Z) (i : Z) : bool :=
  Z.testbit (nth (Z.to_nat (i / 8)) buf 0) (i mod 8).

(** One call of [packBitIntoBuffer] per bit, in order. *)
Fixpoint push_all (bits : list bool) : M unit :=
  match bits with
  | [] => ret tt
  | b :: bits' => packBitIntoBuffer b ;; push_all bits'
  end.

(** The globals after a push of [bit] at fill level [n] below capacity. *)
Definition pushed (bit : bool) (s : State) : State :=
  let n := collectedBits s in
  with_collectedBits (n + 1)
    (if bit
     then with_entropyBuffer
            (<[Z.to_nat (n / 8) :=
                 Z.lor (nth (Z.to_nat (n / 8)) (entropyBuffer s) 0)
                       (Z.shiftl 1 (n mod 8)) mod UINT8_MOD]>
               (entropyBuffer s)) s
     else s).

(** ** The driver loop *)

(** The raw bits 0,1,1,0,0,1,1,0,... of the end-to-end scenario: 512 of
    them, the pairs alternating between 01 and 10. *)
Definition alternating_raw : list bool :=
  concat (replicate 128 [false; true; true; false]).

(** 256 bits that alternate between 1 and 0. *)
Definition alternating_bits : list bool :=
  concat (replicate 128 [true; false]).

(** The shift register of [readHybridNoiseBit] after a sample [adcRaw]. *)
Definition shifted_seed (adcRaw : Z) (s : State) : Z :=
  Z.lor (Z.shiftl (adcSeed s) 1 mod UINT32_MOD) (Z.land adcRaw 1).

(** The states in which an iteration of [loop] can start. *)
Inductive reachable (sha : list Z -> list Z) : State -> Prop :=
| reachable_setup : reachable sha initial_state
| reachable_loop s adcRaw hwRandom pushed_bit s' :
    reachable sha s ->
    Sketch.loop sha adcRaw hwRandom s = Some (pushed_bit, s') ->
    reachable sha s'.

(** Between two iterations the buffer has its 32 bytes and is not full. *)
Definition between_iterations (s : State) : Prop :=
  0 <= collectedBits s < BUFFER_BITS /\ length (entropyBuffer s) = 32%nat.

(** What [hashAndOutput] leaves behind. *)
Definition drained (sha : list Z -> list Z) (s : State) : State :=
  if collectedBits s <? BUFFER_BITS then s
  else reset_buffer (after_calls (sketch_calls sha s) s).

(** What one iteration on the raw bit [rawBit] returns and leaves behind. *)
Definition iterated (sha : list Z -> list Z) (rawBit : bool) (s : State)
  : option bool * State :=
  if hasLastBit s then
    if Bool.eqb (lastBit s) rawBit then
      (None, after_calls [DelayMicroseconds 50] (with_hasLastBit false s))
    else
      (Some rawBit,
       after_calls [DelayMicroseconds 50]
         (drained sha (pushed rawBit (with_hasLastBit false s))))
  else
    (None, after_calls [DelayMicroseconds 50]
             (with_hasLastBit true (with_lastBit rawBit s))).

(** ** Further observations *)

(** Von Neumann extraction as a function of the raw bits: they are read
    in pairs, a pair of different bits gives its second bit, a pair of
    equal bits gives nothing, a last bit without partner gives nothing. *)
Fixpoint von_neumann (raws : list bool) : list bool :=
  match raws with
  | a :: b :: raws' =>
      if Bool.eqb a b then von_neumann raws' else b :: von_neumann raws'
  | _ => []
  end.

(** The buffers that were handed to the hash, oldest first. *)
Definition hashed_input (o : observation) : list (list Z) :=
  match what o with
  | Sha256 input _ => [input]
  | _ => []
  end.

Definition hashed_inputs (w : list observation) : list (list Z) :=
  flat_map hashed_input w.

(** The line that is sent for a hashed buffer. *)
Definition line_of (sha : list Z -> list Z) (input : list Z) : list ascii :=
  hex_of_digest (digest_array (sha input)) ++ Print_println_terminator.

(** The value of an upper-case hexadecimal digit. *)
Definition hex_value (c : ascii) : option Z :=
  let n := Z.of_nat (nat_of_ascii c) in
  if (48 <=? n) && (n <=? 57) then Some (n - 48)
  else if (65 <=? n) && (n <=? 70) then Some (n - 55)
  else None.

(** Reading a line of hexadecimal digits back, two digits per byte. *)
Fixpoint decode_hex (cs : list ascii) : option (list Z) :=
  match cs with
  | [] => Some []
  | hi :: lo :: cs' =>
      match hex_value hi, hex_value lo, decode_hex cs' with
      | Some h, Some l, Some bytes => Some (16 * h + l :: bytes)
      | _, _, _ => None
      end
  | _ => None
  end.

(** What one iteration of the second variant returns and leaves behind. *)
Definition variant_drained (sha : list Z -> list Z) (s : State) : State :=
  if collectedBits s <? BUFFER_BITS then s
  else reset_buffer (after_calls (variant_calls sha s) s).

Definition variant_iterated (sha : list Z -> list Z) (rawBit : bool)
    (s : State) : option bool * State :=
  if hasLastBit s then
    if Bool.eqb (lastBit s) rawBit then (None, with_hasLastBit false s)
    else
      (Some rawBit,
       after_calls [DelayMicroseconds 100]
         (variant_drained sha (pushed rawBit (with_hasLastBit false s))))
  else (None, with_hasLastBit true (with_lastBit rawBit s)).

(** Two states with the same globals whose serial ports have received
    the same bytes and whose hashes were taken of the same buffers. *)
Definition same_outcome (s1 s2 : State) : Prop :=
  entropyBuffer s1 = entropyBuffer s2 /\
  collectedBits s1 = collectedBits s2 /\
  lastBit s1 = lastBit s2 /\
  hasLastBit s1 = hasLastBit s2 /\
  adcSeed s1 = adcSeed s2 /\
  serial_stream (world s1) = serial_stream (world s2) /\
  hashed_inputs (world s1) = hashed_inputs (world s2).

(** Whether an iteration on [rawBit] pushes a bit, and whether that push
    fills the buffer. *)
Definition pushing (rawBit : bool) (s : State) : bool :=
  hasLastBit s && negb (Bool.eqb (lastBit s) rawBit).

Definition filling (rawBit : bool) (s : State) : bool :=
  pushing rawBit s && negb (collectedBits s + 1 <? BUFFER_BITS).

(** What the driver returns and leaves behind for a sequence of raw
    bits. *)
Fixpoint driven (sha : list Z -> list Z) (raws : list bool) (s : State)
  : list bool * State :=
  match raws with
  | [] => ([], s)
  | r :: raws' =>
      let it := iterated sha r s in
      let rest := driven sha raws' (snd it) in
      (match fst it with Some b => b :: fst rest | None => fst rest end,
       snd rest)
  end.

Fixpoint variant_driven (sha : list Z -> list Z) (raws : list bool)
    (s : State) : list bool * State :=
  match raws with
  | [] => ([], s)
  | r :: raws' =>
      let it := variant_iterated sha r s in
      let rest := variant_driven sha raws' (snd it) in
      (match fst it with Some b => b :: fst rest | None => fst rest end,
       snd rest)
  end.

(** The buffers hashed so far and the buffer being filled hold the bits
    [accepted], pushed since the start, in blocks of 256. *)
Definition blocks_packed (accepted : list bool) (s : State) : Prop :=
  between_iterations s /\
  collectedBits s = Z.of_nat (length accepted mod 256) /\
  length (hashed_inputs (world s)) = (length accepted / 256)%nat /\
  (forall i, 0 <= i < 256 ->
     buffer_bit (entropyBuffer s) i
     = (i <? collectedBits s)
       && nth (256 * (length accepted / 256) + Z.to_nat i) accepted false) /\
  (forall k block, hashed_inputs (world s) !! k = Some block ->
     length block = 32%nat /\
     forall i, 0 <= i < 256 ->
       buffer_bit block i = nth (256 * k + Z.to_nat i) accepted false).

(** The driver run on the values that [analogRead] and [esp_random]
    returned, one pair per iteration of [loop]. *)
Fixpoint loop_run (sha : list Z -> list Z) (inputs : list (Z * Z))
    (s : State) : option State :=
  match inputs with
  | [] => Some s
  | (adcRaw, hwRandom) :: inputs' =>
      match Sketch.loop sha adcRaw hwRandom s with
      | Some (_, s') => loop_run sha inputs' s'
      | None => None
      end
  end.

(** Samples and hardware words that make [readHybridNoiseBit] return the
    first 511 of the raw bits 0,1,1,0,...: the sample is always 0, the
    hardware word is the raw bit. *)
Definition alternating_inputs : list (Z * Z) :=
  map (fun b : bool => (0, if b then 1 else 0)) (take 511 alternating_raw).

(** The state that these 511 iterations leave behind: 255 bits in the
    buffer, a bit pending in the corrector. *)
Definition almost_full_state : State :=
  match loop_run SHA256.sha256 alternating_inputs initial_state with
  | Some s => s
  | None => initial_state
  end.

(** * Properties *)

(** ** The monad *)

Ltac run :=
  repeat (progress (cbv [bind ret gets modify lift call_out
                         Serial_write Serial_println Serial_flush delay
                         delayMicroseconds] in *; cbn [fst snd] in *)).

Lemma bind_Some {A B} (m : M A) (k : A -> M B) s a s' :
  m s = Some (a, s') -> bind m k s = k a s'.
Proof. intros H. unfold bind. rewrite H. reflexivity. Qed.

Lemma bind_None {A B} (m : M A) (k : A -> M B) s :
  m s = None -> bind m k s = None.
Proof. intros H. unfold bind. rewrite H. reflexivity. Qed.

(** ** Von Neumann corrector *)

Lemma vonNeumannCorrector_idle c o s :
  hasLastBit s = false ->
  vonNeumannCorrector c o s
  = Some ((false, o), with_hasLastBit true (with_lastBit c s)).
Proof.
  intros H. unfold vonNeumannCorrector. run. rewrite H. reflexivity.
Qed.

Lemma vonNeumannCorrector_armed c o s :
  hasLastBit s = true ->
  vonNeumannCorrector c o s
  = Some ((if Bool.eqb (lastBit s) c then (false, o) else (true, Some c)),
          with_hasLastBit false s).
Proof.
  intros H. unfold vonNeumannCorrector. run. rewrite H. cbn.
  destruct (Bool.eqb (lastBit s) c); reflexivity.
Qed.

Lemma feed_pair_idle a b s :
  hasLastBit s = false ->
  feed_pair a b s
  = Some ((None, if Bool.eqb a b then None else Some b),
          with_hasLastBit false (with_hasLastBit true (with_lastBit a s))).
Proof.
  intros H. unfold feed_pair, bind.
  rewrite (vonNeumannCorrector_idle _ _ _ H).
  rewrite vonNeumannCorrector_armed by reflexivity.
  cbn. destruct (Bool.eqb a b); reflexivity.
Qed.

(** C1: from a corrector with no pending bit, the pairs (0,0) and (1,1)
    give no output, the pair (0,1) gives the bit 1 and the pair (1,0) the
    bit 0; whenever the two bits differ, the bit given is the second one.
    The first call of a pair never gives a bit. *)
Theorem C1_vonNeumann_pairs (s : State) :
  hasLastBit s = false ->
  fst <$> feed_pair false false s = Some (None, None) /\
  fst <$> feed_pair true true s = Some (None, None) /\
  fst <$> feed_pair false true s = Some (None, Some true) /\
  fst <$> feed_pair true false s = Some (None, Some false) /\
  (forall a b : bool, a <> b -> fst <$> feed_pair a b s = Some (None, Some b)).
Proof.
  intros H. repeat split; try (rewrite (feed_pair_idle _ _ _ H); reflexivity).
  intros a b Hab. rewrite (feed_pair_idle _ _ _ H).
  destruct a, b; try reflexivity; contradiction Hab; reflexivity.
Qed.

Lemma C1_vonNeumann_pairs_witness :
  hasLastBit initial_state = false /\
  fst <$> feed_pair false true initial_state = Some (None, Some true) /\
  fst <$> feed_pair true false initial_state = Some (None, Some false).
Proof.
  split; [reflexivity |].
  pose proof (C1_vonNeumann_pairs initial_state eq_refl) as H.
  split; [exact (proj1 (proj2 (proj2 H))) | exact (proj1 (proj2 (proj2 (proj2 H))))].
Defined.

Lemma list_pair_ind {A} (P : list A -> Prop) :
  P [] ->
  (forall a, P [a]) ->
  (forall a b l, P l -> P (a :: b :: l)) ->
  forall l, P l.
Proof.
  intros Hnil Hone Hpair.
  assert (forall l, P l /\ forall a, P (a :: l)) as H.
  { induction l as [|x l [IH1 IH2]]; split; auto. }
  intros l. apply H.
Qed.

Lemma unpaired_pair (a b : bool) (l : list bool) :
  unpaired (a :: b :: l) = unpaired l.
Proof.
  unfold unpaired. cbn [length].
  replace (S (S (length l))) with (length l + 1 * 2)%nat by lia.
  rewrite Nat.div_add by lia.
  replace (2 * (length l / 2 + 1))%nat with (S (S (2 * (length l / 2)))) by lia.
  reflexivity.
Qed.

Lemma feed_cons b raws s :
  feed (b :: raws) s
  = match vonNeumannCorrector b None s with
    | Some (r, s1) =>
        match feed raws s1 with
        | Some (rs, s2) => Some (emitted r :: rs, s2)
        | None => None
        end
    | None => None
    end.
Proof.
  cbn [feed]. unfold bind, ret.
  destruct (vonNeumannCorrector b None s) as [[r s1]|]; [|reflexivity].
  destruct (feed raws s1) as [[rs s2]|]; reflexivity.
Qed.

(** C4: along every run of the corrector from a state with no pending
    bit, each call yields one result that holds at most one bit, the
    calls on the first bit of a pair yield none, at most one bit is given
    per pair, and the pending bits are exactly the raw bits not yet paired
    off: none after an even number of calls, the last raw bit after an odd
    number. *)
Theorem C4_corrector_invariant (raws : list bool) (s : State) :
  hasLastBit s = false ->
  exists outs s',
    feed raws s = Some (outs, s') /\
    length outs = length raws /\
    (forall i, Nat.even i = true -> (i < length raws)%nat ->
               outs !! i = Some None) /\
    (length (omap id outs) <= length raws / 2)%nat /\
    pending s' = unpaired raws /\
    (length (pending s') <= 1)%nat /\
    hasLastBit s' = Nat.odd (length raws).
Proof.
  revert s. induction raws as [|a|a b l IH] using list_pair_ind; intros s H.
  - exists [], s. cbn. unfold pending. rewrite H.
    repeat split; auto; intros; cbn in *; try lia.
  - exists [None], (with_hasLastBit true (with_lastBit a s)).
    rewrite feed_cons, (vonNeumannCorrector_idle _ _ _ H). cbn.
    repeat split; auto.
    intros [|i] _ Hi; [reflexivity | lia].
  - set (s2 := with_hasLastBit false (with_hasLastBit true (with_lastBit a s))).
    destruct (IH s2 eq_refl)
      as (outs & s' & Hrun & Hlen & Heven & Hcount & Hpend & Hone & Hodd).
    exists (None :: (if Bool.eqb a b then None else Some b) :: outs), s'.
    rewrite feed_cons, (vonNeumannCorrector_idle _ _ _ H).
    rewrite feed_cons, vonNeumannCorrector_armed by reflexivity.
    cbn [lastBit with_hasLastBit with_lastBit].
    fold s2. rewrite Hrun.
    split; [destruct (Bool.eqb a b); reflexivity |].
    split; [cbn [length]; lia |].
    split.
    { intros [|[|i]] Hev Hi; [reflexivity | discriminate |].
      cbn. apply Heven; [exact Hev | cbn in Hi; lia]. }
    split.
    { cbn [length].
      replace (S (S (length l))) with (length l + 1 * 2)%nat by lia.
      rewrite Nat.div_add by lia.
      destruct (Bool.eqb a b); cbn -[Nat.div]; lia. }
    rewrite unpaired_pair. repeat split; auto.
Qed.

Lemma C4_corrector_invariant_witness :
  hasLastBit initial_state = false /\
  exists outs s',
    feed [false; true; true] initial_state = Some (outs, s') /\
    outs = [None; Some true; None] /\
    pending s' = [true].
Proof.
  split; [reflexivity |].
  destruct (C4_corrector_invariant [false; true; true] initial_state eq_refl)
    as (outs & s' & Hrun & _ & _ & _ & Hpend & _).
  exists outs, s'. split; [exact Hrun |].
  vm_compute in Hrun. injection Hrun as <- <-. split; reflexivity.
Defined.

(** ** Outgoing calls *)

Lemma observe_after_calls cs s c :
  observe (after_calls cs s) c = observe s c.
Proof. reflexivity. Qed.

Lemma after_calls_nil s : after_calls [] s = s.
Proof.
  destruct s. unfold after_calls, with_world. cbn.
  rewrite app_nil_r. reflexivity.
Qed.

Lemma after_calls_app cs1 cs2 s :
  after_calls cs2 (after_calls cs1 s) = after_calls (cs1 ++ cs2) s.
Proof.
  unfold after_calls, with_world. cbn.
  rewrite map_app, <- app_assoc. reflexivity.
Qed.

Lemma call_out_after c s : call_out c s = Some (tt, after_calls [c] s).
Proof. reflexivity. Qed.

Lemma after_calls_collectedBits cs s :
  collectedBits (after_calls cs s) = collectedBits s.
Proof. reflexivity. Qed.

Lemma after_calls_entropyBuffer cs s :
  entropyBuffer (after_calls cs s) = entropyBuffer s.
Proof. reflexivity. Qed.

Lemma after_calls_world cs s :
  world (after_calls cs s) = world s ++ map (observe s) cs.
Proof. reflexivity. Qed.

Lemma added_app (w new : list observation) : added w (w ++ new) = new.
Proof. unfold added. apply drop_app_length. Qed.

Lemma serial_stream_app w1 w2 :
  serial_stream (w1 ++ w2) = serial_stream w1 ++ serial_stream w2.
Proof. unfold serial_stream. apply flat_map_app. Qed.

Lemma serial_stream_observe s cs :
  serial_stream (map (observe s) cs) = flat_map serial_bytes cs.
Proof.
  unfold serial_stream. induction cs as [|c cs IH]; [reflexivity|].
  cbn. rewrite IH. reflexivity.
Qed.

(** ** The output loop of the sketch *)

Lemma sketch_byte_after digest j s :
  bind (if nth (Z.to_nat (Z.of_nat j)) digest 0 <? 16
        then Serial_print "0" else ret tt)
       (fun _ => Serial_print_base (nth (Z.to_nat (Z.of_nat j)) digest 0) HEX) s
  = Some (tt, after_calls (byte_calls (nth j digest 0)) s).
Proof.
  rewrite Nat2Z.id. unfold byte_calls, bind, Serial_print_base, Serial_print.
  change (HEX =? 0) with false. cbv iota. unfold Serial_write.
  destruct (nth j digest 0 <? 16).
  - rewrite !call_out_after, after_calls_app. reflexivity.
  - unfold ret. rewrite call_out_after. reflexivity.
Qed.

Lemma sketch_loop_after digest n : forall j s,
  for_loop n (Z.of_nat j) (fun i =>
      let d := nth (Z.to_nat i) digest 0 in
      bind (if d <? 16 then Serial_print "0" else ret tt)
           (fun _ => Serial_print_base d HEX)) s
  = Some (tt, after_calls
                (flat_map byte_calls (map (fun i => nth i digest 0) (seq j n)))
                s).
Proof.
  induction n as [|n IH]; intros j s.
  - cbn. rewrite after_calls_nil. reflexivity.
  - cbn [for_loop]. unfold bind at 1. cbv zeta.
    rewrite sketch_byte_after.
    replace (Z.of_nat j + 1) with (Z.of_nat (S j)) by lia.
    rewrite IH, after_calls_app. reflexivity.
Qed.

Lemma sketch_print_digest_after digest s :
  Sketch.print_digest digest s
  = Some (tt, after_calls (sketch_print_calls digest) s).
Proof.
  pose proof (sketch_loop_after digest 32 0 s) as H.
  change (Z.of_nat 0) with 0 in H.
  unfold Sketch.print_digest. rewrite (bind_Some _ _ _ _ _ H).
  unfold Serial_println, Serial_write. rewrite call_out_after, after_calls_app.
  reflexivity.
Qed.

(** ** Hexadecimal digits of a byte *)

Lemma for_all_bytes (P : Z -> bool) :
  forallb P (map Z.of_nat (seq 0 256)) = true ->
  forall d, is_byte d -> P d = true.
Proof.
  intros H d [Hlo Hhi]. rewrite forallb_forall in H. apply H.
  apply in_map_iff. exists (Z.to_nat d). split; [lia|].
  apply in_seq. lia.
Qed.

Lemma same_chars_eq x y : same_chars x y = true -> x = y.
Proof.
  unfold same_chars. destruct (List.list_eq_dec ascii_dec x y); congruence.
Qed.

Lemma byte_calls_hex d :
  is_byte d -> flat_map serial_bytes (byte_calls d) = hex_of_byte d.
Proof.
  intros H. apply same_chars_eq.
  apply (for_all_bytes
           (fun d => same_chars (flat_map serial_bytes (byte_calls d))
                                (hex_of_byte d))); [|exact H].
  vm_compute. reflexivity.
Qed.

Lemma format_02X_hex d : is_byte d -> format_02X d = hex_of_byte d.
Proof.
  intros H. apply same_chars_eq.
  apply (for_all_bytes (fun d => same_chars (format_02X d) (hex_of_byte d)));
    [|exact H].
  vm_compute. reflexivity.
Qed.

Lemma hex_of_byte_upper d : is_byte d -> Forall is_hex_upper (hex_of_byte d).
Proof.
  intros H.
  assert (forallb (fun c => if in_dec ascii_dec c
                                 (list_ascii_of_string "0123456789ABCDEF")
                            then true else false) (hex_of_byte d) = true) as Hb.
  { apply (for_all_bytes
             (fun d => forallb (fun c => if in_dec ascii_dec c
                                  (list_ascii_of_string "0123456789ABCDEF")
                                then true else false) (hex_of_byte d)));
      [vm_compute; reflexivity | exact H]. }
  rewrite forallb_forall in Hb. apply Forall_forall. intros c Hc.
  apply list_elem_of_In in Hc. specialize (Hb c Hc). unfold is_hex_upper.
  destruct (in_dec ascii_dec c (list_ascii_of_string "0123456789ABCDEF"));
    [assumption | discriminate].
Qed.

Lemma hex_of_digest_length digest :
  length (hex_of_digest digest) = (2 * length digest)%nat.
Proof.
  unfold hex_of_digest. induction digest as [|d l IH]; [reflexivity|].
  cbn [flat_map length hex_of_byte app]. rewrite IH. lia.
Qed.

Lemma hex_of_digest_upper digest :
  Forall is_byte digest -> Forall is_hex_upper (hex_of_digest digest).
Proof.
  unfold hex_of_digest. induction 1 as [|d l Hd _ IH]; [constructor|].
  cbn [flat_map]. apply Forall_app. split; [apply hex_of_byte_upper, Hd | exact IH].
Qed.

Lemma hex_of_digest_nibbles digest i d :
  digest !! i = Some d ->
  hex_of_digest digest !! (2 * i)%nat = Some (hex_upper_digit (d / 16)) /\
  hex_of_digest digest !! (2 * i + 1)%nat = Some (hex_upper_digit (d mod 16)).
Proof.
  revert i. induction digest as [|x l IH]; intros i H; [discriminate|].
  destruct i as [|i].
  - injection H as ->. split; reflexivity.
  - cbn in H. specialize (IH i H).
    replace (2 * S i)%nat with (S (S (2 * i))) by lia.
    replace (S (S (2 * i)) + 1)%nat with (S (S (2 * i + 1))) by lia.
    exact IH.
Qed.

Lemma flat_map_serial_bytes_hex cells :
  Forall is_byte cells ->
  flat_map serial_bytes (flat_map byte_calls cells) = hex_of_digest cells.
Proof.
  induction 1 as [|d l Hd _ IH]; [reflexivity|].
  cbn [flat_map]. rewrite flat_map_app, IH, (byte_calls_hex d Hd). reflexivity.
Qed.

Lemma flat_map_format_02X_hex cells :
  Forall is_byte cells -> flat_map format_02X cells = hex_of_digest cells.
Proof.
  induction 1 as [|d l Hd _ IH]; [reflexivity|].
  cbn [flat_map]. rewrite IH, (format_02X_hex d Hd). reflexivity.
Qed.

Lemma map_nth_seq (l : list Z) :
  map (fun i => nth i l 0) (seq 0 (length l)) = l.
Proof.
  induction l as [|a l IH]; [reflexivity|].
  cbn [length seq map nth]. rewrite <- seq_shift, map_map.
  cbn [nth]. rewrite IH. reflexivity.
Qed.

Lemma digest_cells_id digest :
  length digest = 32%nat -> digest_cells digest = digest.
Proof.
  intros H. unfold digest_cells. rewrite <- H. apply map_nth_seq.
Qed.

Lemma digest_array_length out : length (digest_array out) = 32%nat.
Proof. unfold digest_array. rewrite length_map, length_seq. reflexivity. Qed.

Lemma digest_array_bytes out : Forall is_byte (digest_array out).
Proof.
  unfold digest_array. apply Forall_forall. intros x Hx.
  apply list_elem_of_In, in_map_iff in Hx. destruct Hx as (i & <- & _).
  unfold is_byte, UINT8_MOD. apply Z.mod_pos_bound. lia.
Qed.

Lemma sketch_print_calls_stream digest :
  length digest = 32%nat -> Forall is_byte digest ->
  flat_map serial_bytes (sketch_print_calls digest)
  = hex_of_digest digest ++ Print_println_terminator.
Proof.
  intros Hlen Hb. unfold sketch_print_calls.
  rewrite flat_map_app, (digest_cells_id _ Hlen), flat_map_serial_bytes_hex by exact Hb.
  reflexivity.
Qed.

Lemma variant_print_calls_stream digest :
  length digest = 32%nat -> Forall is_byte digest ->
  flat_map serial_bytes (variant_print_calls digest)
  = hex_of_digest digest ++ Print_println_terminator.
Proof.
  intros Hlen Hb. unfold variant_print_calls. cbn [flat_map serial_bytes].
  rewrite (digest_cells_id _ Hlen), flat_map_format_02X_hex, app_nil_r by exact Hb.
  reflexivity.
Qed.

(** ** The output loop of the second variant *)

Lemma store_chars_eq cs : forall (buf : chars) pos,
  (pos + length cs <= length buf)%nat ->
  store_chars buf pos cs
  = Some (take pos buf ++ map Some cs ++ drop (pos + length cs) buf).
Proof.
  induction cs as [|c cs IH]; intros buf pos H.
  - cbn. rewrite Nat.add_0_r, take_drop. reflexivity.
  - cbn [store_chars length] in *.
    assert (pos < length buf)%nat as Hpos by lia.
    apply Nat.ltb_lt in Hpos as Hb. rewrite Hb.
    rewrite IH by (rewrite length_insert; lia).
    rewrite (take_S_r _ _ (Some c)) by (apply list_lookup_insert_eq; exact Hpos).
    rewrite take_insert_ge by lia.
    rewrite drop_insert_lt by lia.
    rewrite <- app_assoc. cbn [map app].
    replace (S pos + length cs)%nat with (pos + S (length cs))%nat by lia.
    reflexivity.
Qed.

Lemma sprintf_02X_byte (pre : list ascii) (rest : chars) j d :
  is_byte d ->
  length pre = (2 * j)%nat ->
  (3 <= length rest)%nat ->
  sprintf_02X (map Some pre ++ rest) (Z.of_nat (2 * j)) d
  = Some (map Some (pre ++ hex_of_byte d) ++ Some NUL :: drop 3 rest, 2).
Proof.
  intros Hd Hpre Hrest. unfold sprintf_02X.
  destruct (Z.of_nat (2 * j) <? 0) eqn:Hneg; [apply Z.ltb_lt in Hneg; lia|].
  rewrite Nat2Z.id, (format_02X_hex d Hd).
  rewrite store_chars_eq
    by (rewrite !length_app, length_map, Hpre; cbn [length hex_of_byte app]; lia).
  rewrite take_app_length' by (rewrite length_map; lia).
  rewrite drop_app_add' by (rewrite length_map; lia).
  cbn [hex_of_byte app length map]. rewrite map_app, <- app_assoc.
  reflexivity.
Qed.

Lemma variant_loop_after digest s n : forall j (pre : list ascii) (rest : chars),
  (forall i, is_byte (nth i digest 0)) ->
  length pre = (2 * j)%nat ->
  (2 * n + 1 <= length rest)%nat ->
  exists rest',
    length rest' = (length rest - 2 * n)%nat /\
    for_locals n (Z.of_nat j) (fun i '(outputBuffer, pos) =>
        bind (lift (sprintf_02X outputBuffer pos (nth (Z.to_nat i) digest 0)))
             (fun w => ret (fst w, pos + snd w)))
      (map Some pre ++ rest, Z.of_nat (2 * j)) s
    = Some ((map Some (pre ++ flat_map hex_of_byte
                              (map (fun i => nth i digest 0) (seq j n)))
               ++ rest',
             Z.of_nat (2 * (j + n))), s).
Proof.
  induction n as [|n IH]; intros j pre rest Hb Hpre Hrest.
  - exists rest. split; [lia|]. cbn [for_locals seq map flat_map].
    rewrite app_nil_r, Nat.add_0_r. reflexivity.
  - cbn [for_locals].
    assert (bind (lift (sprintf_02X (map Some pre ++ rest) (Z.of_nat (2 * j))
                          (nth (Z.to_nat (Z.of_nat j)) digest 0)))
                 (fun w => ret (fst w, Z.of_nat (2 * j) + snd w)) s
            = Some ((map Some (pre ++ hex_of_byte (nth j digest 0))
                       ++ Some NUL :: drop 3 rest,
                     Z.of_nat (2 * S j)), s)) as Hstep.
    { rewrite Nat2Z.id.
      rewrite (sprintf_02X_byte pre rest j _ (Hb j) Hpre) by lia.
      unfold bind, lift, ret. cbn [fst snd].
      replace (Z.of_nat (2 * j) + 2) with (Z.of_nat (2 * S j)) by lia.
      reflexivity. }
    rewrite (bind_Some _ _ _ _ _ Hstep).
    replace (Z.of_nat j + 1) with (Z.of_nat (S j)) by lia.
    destruct (IH (S j) (pre ++ hex_of_byte (nth j digest 0))
                (Some NUL :: drop 3 rest) Hb) as (rest' & Hlen & Hrun).
    { rewrite length_app, Hpre. cbn [hex_of_byte length]. lia. }
    { cbn [length]. rewrite length_drop. lia. }
    exists rest'. split.
    { rewrite Hlen. cbn [length]. rewrite length_drop. lia. }
    rewrite Hrun. cbn [seq map flat_map]. rewrite <- app_assoc.
    replace (S j + n)%nat with (j + S n)%nat by lia. reflexivity.
Qed.

Lemma c_str_terminated (cs : list ascii) (rest : chars) :
  Forall (fun c => c <> NUL) cs ->
  c_str (map Some cs ++ Some NUL :: rest) = Some cs.
Proof.
  induction 1 as [|c cs Hc _ IH].
  - cbn. rewrite Ascii.eqb_refl. reflexivity.
  - cbn [map app c_str]. apply Ascii.eqb_neq in Hc. rewrite Hc, IH.
    reflexivity.
Qed.

Lemma is_hex_upper_not_NUL c : is_hex_upper c -> c <> NUL.
Proof.
  unfold is_hex_upper. cbn [list_ascii_of_string In].
  intros H Heq. subst c.
  repeat (destruct H as [H|H]; [discriminate H|]). exact H.
Qed.

Lemma variant_print_digest_after digest s :
  length digest = 32%nat -> Forall is_byte digest ->
  Variant.print_digest digest s
  = Some (tt, after_calls (variant_print_calls digest) s).
Proof.
  intros Hlen Hb.
  assert (forall i, is_byte (nth i digest 0)) as Hnth.
  { intros i. destruct (Nat.lt_ge_cases i (length digest)) as [Hi|Hi].
    - rewrite Forall_forall in Hb. apply Hb, list_elem_of_In, nth_In, Hi.
    - rewrite nth_overflow by exact Hi. unfold is_byte. lia. }
  destruct (variant_loop_after digest s 32 0 [] (replicate 65 None) Hnth eq_refl)
    as (rest' & Hrest & Hrun).
  { rewrite length_replicate. lia. }
  rewrite length_replicate in Hrest.
  destruct rest' as [|r [|r' rest']]; try discriminate Hrest.
  unfold Variant.print_digest.
  change (Z.of_nat 0) with 0 in Hrun. change (Z.of_nat (2 * 0)) with 0 in Hrun.
  cbn [map app] in Hrun. cbv zeta.
  rewrite (bind_Some _ _ _ _ _ Hrun). cbn [fst snd].
  fold (digest_cells digest). fold (hex_of_digest (digest_cells digest)).
  rewrite (digest_cells_id _ Hlen).
  rewrite store_chars_eq
    by (rewrite length_app, length_map, hex_of_digest_length, Hlen; cbn; lia).
  rewrite take_app_length'
    by (rewrite length_map, hex_of_digest_length, Hlen; reflexivity).
  rewrite drop_ge
    by (rewrite length_app, length_map, hex_of_digest_length, Hlen; cbn; lia).
  unfold lift at 1. unfold bind at 1.
  unfold Serial_println_str.
  cbn [map app]. rewrite c_str_terminated.
  2:{ eapply Forall_impl; [apply hex_of_digest_upper, Hb|].
      intros c Hc. apply is_hex_upper_not_NUL, Hc. }
  unfold lift, bind, Serial_println, Serial_write.
  rewrite !call_out_after, after_calls_app.
  unfold variant_print_calls.
  rewrite (digest_cells_id _ Hlen), flat_map_format_02X_hex by exact Hb.
  reflexivity.
Qed.

(** ** [hashAndOutput] below and at capacity *)

Lemma sketch_hashAndOutput_short sha s :
  collectedBits s < BUFFER_BITS -> Sketch.hashAndOutput sha s = Some (tt, s).
Proof.
  intros H. unfold Sketch.hashAndOutput.
  rewrite (bind_Some _ _ s (collectedBits s) s) by reflexivity.
  apply Z.ltb_lt in H. rewrite H. reflexivity.
Qed.

Lemma variant_hashAndOutput_short sha s :
  collectedBits s < BUFFER_BITS -> Variant.hashAndOutput sha s = Some (tt, s).
Proof.
  intros H. unfold Variant.hashAndOutput.
  rewrite (bind_Some _ _ s (collectedBits s) s) by reflexivity.
  apply Z.ltb_lt in H. rewrite H. reflexivity.
Qed.

Lemma memset_whole s :
  (32 <= length (entropyBuffer s))%nat ->
  memset_entropyBuffer 0 sizeof_entropyBuffer s
  = Some (tt, with_entropyBuffer
                (replicate 32 0 ++ drop 32 (entropyBuffer s)) s).
Proof.
  intros H. unfold memset_entropyBuffer.
  change sizeof_entropyBuffer with 32.
  replace ((0 <=? 32) && (32 <=? Z.of_nat (length (entropyBuffer s))))
    with true by (symmetry; apply andb_true_intro; split; lia).
  reflexivity.
Qed.

Lemma sketch_hashAndOutput_full sha s :
  BUFFER_BITS <= collectedBits s ->
  (32 <= length (entropyBuffer s))%nat ->
  Sketch.hashAndOutput sha s
  = Some (tt, reset_buffer (after_calls (sketch_calls sha s) s)).
Proof.
  intros Hn Hlen. unfold Sketch.hashAndOutput.
  rewrite (bind_Some _ _ s (collectedBits s) s) by reflexivity.
  apply Z.ltb_ge in Hn. rewrite Hn.
  rewrite (bind_Some _ _ s (entropyBuffer s) s) by reflexivity.
  cbv zeta. change (Z.to_nat sizeof_entropyBuffer) with 32%nat.
  rewrite (bind_Some _ _ _ _ _ (call_out_after _ s)).
  rewrite (bind_Some _ _ _ _ _ (sketch_print_digest_after _ _)).
  rewrite after_calls_app.
  erewrite bind_Some by reflexivity.
  rewrite memset_whole by exact Hlen.
  reflexivity.
Qed.

Lemma variant_hashAndOutput_full sha s :
  BUFFER_BITS <= collectedBits s ->
  (32 <= length (entropyBuffer s))%nat ->
  Variant.hashAndOutput sha s
  = Some (tt, reset_buffer (after_calls (variant_calls sha s) s)).
Proof.
  intros Hn Hlen. unfold Variant.hashAndOutput.
  rewrite (bind_Some _ _ s (collectedBits s) s) by reflexivity.
  apply Z.ltb_ge in Hn. rewrite Hn.
  rewrite (bind_Some _ _ s (entropyBuffer s) s) by reflexivity.
  cbv zeta. change (Z.to_nat sizeof_entropyBuffer) with 32%nat.
  rewrite (bind_Some _ _ _ _ _ (call_out_after _ s)).
  unfold Serial_flush, delay.
  rewrite (bind_Some _ _ _ _ _ (call_out_after _ _)), after_calls_app.
  rewrite (bind_Some _ _ _ _ _ (call_out_after _ _)), after_calls_app.
  rewrite (bind_Some _ _ _ _ _
             (variant_print_digest_after _ _ (digest_array_length _)
                                         (digest_array_bytes _))).
  rewrite after_calls_app.
  erewrite bind_Some by reflexivity.
  rewrite memset_whole by exact Hlen.
  reflexivity.
Qed.

Lemma reset_buffer_entropyBuffer s :
  length (entropyBuffer s) = 32%nat ->
  entropyBuffer (reset_buffer s) = replicate 32 0.
Proof.
  intros H. unfold reset_buffer. cbn [entropyBuffer with_entropyBuffer
                                       with_collectedBits].
  rewrite drop_ge by lia. apply app_nil_r.
Qed.

(** ** Counting outgoing calls *)

Lemma count_calls_app p w1 w2 :
  count_calls p (w1 ++ w2) = (count_calls p w1 + count_calls p w2)%nat.
Proof. unfold count_calls. rewrite List.filter_app, length_app. reflexivity. Qed.

Lemma count_calls_observe p s cs :
  count_calls p (map (observe s) cs) = length (List.filter p cs).
Proof.
  unfold count_calls. induction cs as [|c cs IH]; [reflexivity|].
  cbn [map List.filter what observe]. destruct (p c); cbn [length]; rewrite IH;
    reflexivity.
Qed.

Lemma byte_calls_no_line_break d :
  is_byte d -> List.filter is_line_break (byte_calls d) = [].
Proof.
  intros H.
  assert ((match List.filter is_line_break (byte_calls d) with
           | [] => true | _ => false end) = true) as Hb.
  { apply (for_all_bytes
             (fun d => match List.filter is_line_break (byte_calls d) with
                       | [] => true | _ => false end));
      [vm_compute; reflexivity | exact H]. }
  destruct (List.filter is_line_break (byte_calls d)); [reflexivity | discriminate].
Qed.

Lemma byte_calls_no_sha256 d : List.filter is_sha256 (byte_calls d) = [].
Proof. unfold byte_calls. destruct (d <? 16); reflexivity. Qed.

Lemma filter_flat_map_nil {A B} (p : B -> bool) (f : A -> list B) (P : A -> Prop) l :
  (forall a, P a -> List.filter p (f a) = []) ->
  Forall P l -> List.filter p (flat_map f l) = [].
Proof.
  intros Hf. induction 1 as [|a l Ha _ IH]; [reflexivity|].
  cbn [flat_map]. rewrite List.filter_app, (Hf a Ha), IH. reflexivity.
Qed.

Lemma sketch_calls_line_breaks sha s :
  length (List.filter is_line_break (sketch_calls sha s)) = 1%nat.
Proof.
  unfold sketch_calls, sketch_print_calls. cbv zeta.
  cbn [List.filter is_line_break].
  rewrite List.filter_app, digest_cells_id by apply digest_array_length.
  rewrite (filter_flat_map_nil _ _ is_byte)
    by (first [apply byte_calls_no_line_break | apply digest_array_bytes]).
  reflexivity.
Qed.

Lemma sketch_calls_hashes sha s :
  length (List.filter is_sha256 (sketch_calls sha s)) = 1%nat.
Proof.
  unfold sketch_calls, sketch_print_calls. cbv zeta.
  cbn [List.filter is_sha256 length].
  rewrite List.filter_app.
  rewrite (filter_flat_map_nil _ _ (fun _ => True))
    by (first [intros; apply byte_calls_no_sha256 | apply Forall_forall; auto]).
  reflexivity.
Qed.

(** C5: below 256 collected bits [hashAndOutput] returns at once and
    leaves every global and the record of outgoing calls as they were, so
    neither a digest nor a part of one is sent; this holds for both
    variants of the function. *)
Theorem C5_no_partial_emission (sha : list Z -> list Z) (s : State) :
  collectedBits s < BUFFER_BITS ->
  Sketch.hashAndOutput sha s = Some (tt, s) /\
  Variant.hashAndOutput sha s = Some (tt, s).
Proof.
  intros H. split.
  - apply sketch_hashAndOutput_short, H.
  - apply variant_hashAndOutput_short, H.
Qed.

Lemma C5_no_partial_emission_witness :
  collectedBits (with_collectedBits 255 full_state) < BUFFER_BITS /\
  Sketch.hashAndOutput SHA256.sha256 (with_collectedBits 255 full_state)
  = Some (tt, with_collectedBits 255 full_state).
Proof.
  split; [reflexivity |].
  apply (C5_no_partial_emission SHA256.sha256
           (with_collectedBits 255 full_state)).
  reflexivity.
Defined.

(** C6: whenever [hashAndOutput] sends a block, whatever the 32 bytes of
    the buffer were, it returns with the fill counter at 0 and each of the
    32 bytes of the buffer at 0. *)
Theorem C6_reset_after_emission (sha : list Z -> list Z) (s : State) :
  length (entropyBuffer s) = 32%nat ->
  BUFFER_BITS <= collectedBits s ->
  exists s',
    Sketch.hashAndOutput sha s = Some (tt, s') /\
    count_calls is_line_break (added (world s) (world s')) = 1%nat /\
    collectedBits s' = 0 /\
    entropyBuffer s' = replicate 32 0 /\
    (forall i, (i < 32)%nat -> entropyBuffer s' !! i = Some 0).
Proof.
  intros Hlen Hn. eexists. split.
  - apply sketch_hashAndOutput_full; [exact Hn | lia].
  - assert (entropyBuffer
              (reset_buffer (after_calls (sketch_calls sha s) s))
            = replicate 32 0) as Hbuf
      by (apply reset_buffer_entropyBuffer; exact Hlen).
    split; [| split; [reflexivity | split; [exact Hbuf |]]].
    + cbn [world reset_buffer with_entropyBuffer with_collectedBits].
      rewrite after_calls_world, added_app, count_calls_observe.
      apply sketch_calls_line_breaks.
    + intros i Hi. rewrite Hbuf. apply lookup_replicate_2. exact Hi.
Qed.

Lemma C6_reset_after_emission_witness :
  length (entropyBuffer full_state) = 32%nat /\
  BUFFER_BITS <= collectedBits full_state /\
  exists s',
    Sketch.hashAndOutput SHA256.sha256 full_state = Some (tt, s') /\
    collectedBits s' = 0 /\
    entropyBuffer s' = replicate 32 0.
Proof.
  split; [reflexivity |]. split; [vm_compute; discriminate |].
  destruct (C6_reset_after_emission SHA256.sha256 full_state)
    as (s' & Hrun & _ & Hn & Hbuf & _).
  - reflexivity.
  - vm_compute; discriminate.
  - exists s'. repeat split; assumption.
Defined.

(** ** Output encoding *)

Lemma forallb_is_byte l :
  forallb (fun b => (0 <=? b) && (b <? 256)) l = true -> Forall is_byte l.
Proof.
  intros H. rewrite forallb_forall in H. apply Forall_forall. intros x Hx.
  apply list_elem_of_In, H, andb_prop in Hx. unfold is_byte. lia.
Qed.

Lemma map_what_observe s cs : map what (map (observe s) cs) = cs.
Proof.
  induction cs as [|c cs IH]; [reflexivity|]. cbn [map what observe].
  rewrite IH. reflexivity.
Qed.

Lemma added_after_calls cs s :
  added (world s) (world (after_calls cs s)) = map (observe s) cs.
Proof. rewrite after_calls_world. apply added_app. Qed.

(** C8: a digest of 32 bytes is sent, by either variant, as the 64
    upper-case hexadecimal digits of its bytes in their own order, two
    per byte with the most significant nibble first (so a byte below 0x10
    starts with 0), nothing between them, followed by the line break of
    [println]; the digest of 32 zero bytes is sent as 64 characters 0 and
    the line break. *)
Theorem C8_output_encoding (digest : list Z) (s : State) :
  length digest = 32%nat ->
  Forall is_byte digest ->
  (exists s',
      Sketch.print_digest digest s = Some (tt, s') /\
      serial_stream (added (world s) (world s'))
      = hex_of_digest digest ++ Print_println_terminator) /\
  (exists s',
      Variant.print_digest digest s = Some (tt, s') /\
      serial_stream (added (world s) (world s'))
      = hex_of_digest digest ++ Print_println_terminator) /\
  length (hex_of_digest digest) = 64%nat /\
  Forall is_hex_upper (hex_of_digest digest) /\
  (forall i d, digest !! i = Some d ->
     hex_of_digest digest !! (2 * i)%nat = Some (hex_upper_digit (d / 16)) /\
     hex_of_digest digest !! (2 * i + 1)%nat
     = Some (hex_upper_digit (d mod 16))) /\
  (digest = replicate 32 0 ->
     hex_of_digest digest = replicate 64 "0"%char).
Proof.
  intros Hlen Hb. split; [|split; [|split; [|split; [|split]]]].
  - eexists. split; [apply sketch_print_digest_after|].
    rewrite added_after_calls, serial_stream_observe.
    apply sketch_print_calls_stream; assumption.
  - eexists. split; [apply variant_print_digest_after; assumption|].
    rewrite added_after_calls, serial_stream_observe.
    apply variant_print_calls_stream; assumption.
  - rewrite hex_of_digest_length, Hlen. reflexivity.
  - apply hex_of_digest_upper, Hb.
  - intros i d Hi. apply hex_of_digest_nibbles, Hi.
  - intros ->. reflexivity.
Qed.

Lemma C8_output_encoding_witness :
  length (replicate 32 0) = 32%nat /\
  Forall is_byte (replicate 32 0) /\
  exists s',
    Sketch.print_digest (replicate 32 0) initial_state = Some (tt, s') /\
    serial_stream (added (world initial_state) (world s'))
    = replicate 64 "0"%char ++ Print_println_terminator.
Proof.
  assert (Forall is_byte (replicate 32 0)) as Hb.
  { apply forallb_is_byte. vm_compute. reflexivity. }
  split; [reflexivity |]. split; [exact Hb |].
  destruct (C8_output_encoding (replicate 32 0) initial_state eq_refl Hb)
    as ((s' & Hrun & Hout) & _).
  exists s'. split; [exact Hrun | exact Hout].
Defined.

(** C10: for a digest of 32 bytes the loop of [Serial.print] calls with a
    ["0"] put in front of the values below 0x10 and the line built with
    [sprintf("%02X")] send the same bytes to the serial port. *)
Theorem C10_encodings_agree (digest : list Z) (s1 s2 : State) :
  length digest = 32%nat ->
  Forall is_byte digest ->
  exists s1' s2',
    Sketch.print_digest digest s1 = Some (tt, s1') /\
    Variant.print_digest digest s2 = Some (tt, s2') /\
    serial_stream (added (world s1) (world s1'))
    = serial_stream (added (world s2) (world s2')).
Proof.
  intros Hlen Hb. eexists. eexists.
  split; [apply sketch_print_digest_after|].
  split; [apply variant_print_digest_after; assumption|].
  rewrite !added_after_calls, !serial_stream_observe.
  rewrite sketch_print_calls_stream, variant_print_calls_stream by assumption.
  reflexivity.
Qed.

Lemma C10_encodings_agree_witness :
  length (SHA256.sha256 (replicate 32 85)) = 32%nat /\
  Forall is_byte (SHA256.sha256 (replicate 32 85)) /\
  exists s1' s2',
    Sketch.print_digest (SHA256.sha256 (replicate 32 85)) initial_state
    = Some (tt, s1') /\
    Variant.print_digest (SHA256.sha256 (replicate 32 85)) initial_state
    = Some (tt, s2') /\
    serial_stream (world s1') = serial_stream (world s2').
Proof.
  assert (Forall is_byte (SHA256.sha256 (replicate 32 85))) as Hb.
  { apply forallb_is_byte. vm_compute. reflexivity. }
  split; [reflexivity |]. split; [exact Hb |].
  destruct (C10_encodings_agree (SHA256.sha256 (replicate 32 85))
              initial_state initial_state eq_refl Hb)
    as (s1' & s2' & H1 & H2 & Heq).
  exists s1', s2'. split; [exact H1 |]. split; [exact H2 |].
  exact Heq.
Defined.

(** ** Order of hash, emission and reset *)

Lemma In_observe s cs o :
  In o (map (observe s) cs) ->
  seen_collectedBits o = collectedBits s /\
  seen_entropyBuffer o = entropyBuffer s.
Proof.
  intros H. apply in_map_iff in H. destruct H as (c & <- & _).
  split; reflexivity.
Qed.

Lemma sketch_calls_stream sha s :
  flat_map serial_bytes (sketch_print_calls
                           (digest_array (sha (take 32 (entropyBuffer s)))))
  = hex_of_digest (digest_array (sha (take 32 (entropyBuffer s))))
      ++ Print_println_terminator.
Proof.
  apply sketch_print_calls_stream;
    [apply digest_array_length | apply digest_array_bytes].
Qed.

Lemma variant_calls_stream sha s :
  flat_map serial_bytes
    (SerialFlush :: Delay 10
       :: variant_print_calls (digest_array (sha (take 32 (entropyBuffer s)))))
  = hex_of_digest (digest_array (sha (take 32 (entropyBuffer s))))
      ++ Print_println_terminator.
Proof.
  cbn [flat_map serial_bytes app].
  pose proof (variant_print_calls_stream
                (digest_array (sha (take 32 (entropyBuffer s))))
                (digest_array_length _) (digest_array_bytes _)) as H.
  cbn [flat_map] in H. exact H.
Qed.

(** C2, as the design document has it, fails: on the buffer that the run
    0,1,1,0,... fills, the line break is written to the serial port while
    the fill counter is still 256 and the buffer still holds its bits. *)
Lemma C2_reset_before_emission_counterexample :
  collectedBits full_state = BUFFER_BITS /\
  (exists s', Sketch.hashAndOutput SHA256.sha256 full_state = Some (tt, s') /\
              ~ reset_precedes_emission full_state s') /\
  (exists s', Variant.hashAndOutput SHA256.sha256 full_state = Some (tt, s') /\
              ~ reset_precedes_emission full_state s').
Proof.
  split; [reflexivity |].
  pose (o := observe full_state (SerialWrite Print_println_terminator)).
  split.
  - eexists. split; [vm_compute; reflexivity |].
    intros H. destruct (H o) as [H0 _]; [| reflexivity | discriminate H0].
    vm_compute. repeat first [left; reflexivity | right].
  - eexists. split; [vm_compute; reflexivity |].
    intros H. destruct (H o) as [H0 _]; [| reflexivity | discriminate H0].
    vm_compute. repeat first [left; reflexivity | right].
Qed.

(** C2, amended: on a full buffer [hashAndOutput] first computes the
    digest of the 32 bytes of the buffer, then sends that digest and the
    line break to the serial port with the fill counter and the buffer
    still as they were on entry, and resets both to zero only after the
    last write; this holds for both variants of the function. *)
Theorem C2_emission_before_reset (sha : list Z -> list Z) (s : State) :
  length (entropyBuffer s) = 32%nat ->
  BUFFER_BITS <= collectedBits s ->
  (exists s', Sketch.hashAndOutput sha s = Some (tt, s') /\
              hash_precedes_emission sha s s' /\
              emission_precedes_reset s s') /\
  (exists s', Variant.hashAndOutput sha s = Some (tt, s') /\
              hash_precedes_emission sha s s' /\
              emission_precedes_reset s s').
Proof.
  intros Hlen Hn. split.
  - eexists. split; [apply sketch_hashAndOutput_full; [exact Hn | lia] |].
    assert (world (reset_buffer (after_calls (sketch_calls sha s) s))
            = world (after_calls (sketch_calls sha s) s)) as Hw by reflexivity.
    split.
    + unfold hash_precedes_emission. cbv zeta.
      rewrite Hw, added_after_calls, map_what_observe.
      eexists. split; [reflexivity | apply sketch_calls_stream].
    + split; [| split; [reflexivity |
                        apply reset_buffer_entropyBuffer; exact Hlen]].
      intros o Ho. rewrite Hw, added_after_calls in Ho.
      apply In_observe in Ho. exact Ho.
  - eexists. split; [apply variant_hashAndOutput_full; [exact Hn | lia] |].
    assert (world (reset_buffer (after_calls (variant_calls sha s) s))
            = world (after_calls (variant_calls sha s) s)) as Hw by reflexivity.
    split.
    + unfold hash_precedes_emission. cbv zeta.
      rewrite Hw, added_after_calls, map_what_observe.
      eexists. split; [reflexivity | apply variant_calls_stream].
    + split; [| split; [reflexivity |
                        apply reset_buffer_entropyBuffer; exact Hlen]].
      intros o Ho. rewrite Hw, added_after_calls in Ho.
      apply In_observe in Ho. exact Ho.
Qed.

Lemma C2_emission_before_reset_witness :
  length (entropyBuffer full_state) = 32%nat /\
  BUFFER_BITS <= collectedBits full_state /\
  exists s', Sketch.hashAndOutput SHA256.sha256 full_state = Some (tt, s') /\
             emission_precedes_reset full_state s'.
Proof.
  split; [reflexivity |]. split; [vm_compute; discriminate |].
  destruct (C2_emission_before_reset SHA256.sha256 full_state)
    as ((s' & Hrun & _ & Horder) & _).
  - reflexivity.
  - vm_compute; discriminate.
  - exists s'. split; assumption.
Defined.

(** ** Packing bits *)

Lemma packBitIntoBuffer_below bit s :
  0 <= collectedBits s < BUFFER_BITS ->
  length (entropyBuffer s) = 32%nat ->
  packBitIntoBuffer bit s = Some (tt, pushed bit s).
Proof.
  unfold BUFFER_BITS. intros Hn Hlen. unfold packBitIntoBuffer.
  rewrite (bind_Some _ _ s (collectedBits s) s) by reflexivity.
  cbv zeta.
  assert (in_bounds (collectedBits s / 8) (entropyBuffer s) = true) as Hin.
  { unfold in_bounds. rewrite Hlen. apply andb_true_intro.
    split; [apply Z.leb_le | apply Z.ltb_lt].
    - apply Z.div_pos; lia.
    - apply Z.div_lt_upper_bound; lia. }
  assert ((collectedBits s + 1) mod UINT32_MOD = collectedBits s + 1) as Hwrap.
  { unfold UINT32_MOD. apply Z.mod_small. lia. }
  unfold pushed. destruct bit.
  - unfold load_entropyBuffer, store_entropyBuffer, bind, modify.
    rewrite Hin. cbn [entropyBuffer with_entropyBuffer collectedBits].
    rewrite Hin, Hwrap. reflexivity.
  - unfold bind, ret, modify. rewrite Hwrap. reflexivity.
Qed.

Lemma pushed_length bit s :
  length (entropyBuffer (pushed bit s)) = length (entropyBuffer s).
Proof.
  unfold pushed. destruct bit; cbn [entropyBuffer with_collectedBits
                                      with_entropyBuffer];
    [apply length_insert | reflexivity].
Qed.

Lemma div_mod_8_eq i n :
  i / 8 = n / 8 -> i mod 8 = n mod 8 -> i = n.
Proof.
  intros Hd Hm. rewrite (Z.div_mod i 8), (Z.div_mod n 8) by lia.
  rewrite Hd, Hm. reflexivity.
Qed.

Lemma buffer_bit_pushed bit s i :
  0 <= collectedBits s < BUFFER_BITS ->
  length (entropyBuffer s) = 32%nat ->
  0 <= i ->
  buffer_bit (entropyBuffer (pushed bit s)) i
  = if i =? collectedBits s
    then buffer_bit (entropyBuffer s) i || bit
    else buffer_bit (entropyBuffer s) i.
Proof.
  unfold BUFFER_BITS. intros Hn Hlen Hi.
  set (n := collectedBits s) in *.
  assert (0 <= n / 8 < 32) as Hbyte
    by (split; [apply Z.div_pos | apply Z.div_lt_upper_bound]; lia).
  assert (0 <= n mod 8 < 8) as Hbit by (apply Z.mod_pos_bound; lia).
  assert (0 <= i mod 8 < 8) as Hbit' by (apply Z.mod_pos_bound; lia).
  assert (0 <= i / 8) as Hbyte' by (apply Z.div_pos; lia).
  unfold pushed. fold n. destruct bit;
    cbn [entropyBuffer with_collectedBits with_entropyBuffer].
  - unfold buffer_bit. rewrite !nth_lookup.
    destruct (Z.eq_dec (i / 8) (n / 8)) as [Hd|Hd].
    + rewrite Hd, list_lookup_insert_eq by lia. cbn [default from_option].
      unfold id, UINT8_MOD. rewrite Z.mod_pow2_bits_low by lia.
      rewrite Z.lor_spec, Z.shiftl_1_l, Z.pow2_bits_eqb by lia.
      destruct (Z.eqb_spec i n) as [->|Hne].
      * rewrite Z.eqb_refl. reflexivity.
      * destruct (Z.eqb_spec (n mod 8) (i mod 8)) as [Hm|Hm].
        { exfalso. apply Hne. apply div_mod_8_eq; congruence. }
        apply orb_false_r.
    + rewrite list_lookup_insert_ne by lia.
      destruct (Z.eqb_spec i n) as [->|Hne]; [contradiction | reflexivity].
  - destruct (i =? n); [apply eq_sym, orb_false_r | reflexivity].
Qed.

Lemma push_all_layout bits : forall s,
  0 <= collectedBits s ->
  collectedBits s + Z.of_nat (length bits) <= BUFFER_BITS ->
  length (entropyBuffer s) = 32%nat ->
  exists s',
    push_all bits s = Some (tt, s') /\
    collectedBits s' = collectedBits s + Z.of_nat (length bits) /\
    length (entropyBuffer s') = 32%nat /\
    forall i, 0 <= i ->
      buffer_bit (entropyBuffer s') i
      = if (collectedBits s <=? i)
           && (i <? collectedBits s + Z.of_nat (length bits))
        then buffer_bit (entropyBuffer s) i
             || nth (Z.to_nat (i - collectedBits s)) bits false
        else buffer_bit (entropyBuffer s) i.
Proof.
  unfold BUFFER_BITS.
  induction bits as [|b bits IH]; intros s Hn Hroom Hlen.
  - exists s. cbn [push_all length]. repeat split; [lia | exact Hlen |].
    intros i Hi.
    destruct (Z.leb_spec (collectedBits s) i), (Z.ltb_spec i (collectedBits s + Z.of_nat 0));
      cbn [andb]; try reflexivity; lia.
  - cbn [length] in Hroom. cbn [push_all].
    assert (0 <= collectedBits s < BUFFER_BITS) as Hbelow
      by (unfold BUFFER_BITS; lia).
    rewrite (bind_Some _ _ _ _ _ (packBitIntoBuffer_below b s Hbelow Hlen)).
    assert (collectedBits (pushed b s) = collectedBits s + 1) as Hn1
      by reflexivity.
    destruct (IH (pushed b s)) as (s' & Hrun & Hcount & Hlen' & Hbits).
    { lia. }
    { rewrite Hn1. lia. }
    { rewrite pushed_length. exact Hlen. }
    exists s'. split; [exact Hrun |].
    split; [rewrite Hcount, Hn1; cbn [length]; lia |].
    split; [exact Hlen' |].
    intros i Hi. rewrite (Hbits i Hi), Hn1.
    rewrite !(buffer_bit_pushed b s i Hbelow Hlen Hi).
    cbn [length].
    destruct (Z.eqb_spec i (collectedBits s)) as [->|Hne].
    + replace (collectedBits s - collectedBits s) with 0 by lia.
      destruct (Z.leb_spec (collectedBits s + 1) (collectedBits s)); [lia|].
      destruct (Z.leb_spec (collectedBits s) (collectedBits s)); [|lia].
      destruct (Z.ltb_spec (collectedBits s)
                  (collectedBits s + Z.of_nat (S (length bits)))); [|lia].
      reflexivity.
    + destruct (Z.leb_spec (collectedBits s + 1) i),
               (Z.ltb_spec i (collectedBits s + 1 + Z.of_nat (length bits))),
               (Z.leb_spec (collectedBits s) i),
               (Z.ltb_spec i (collectedBits s + Z.of_nat (S (length bits))));
        cbn [andb]; try reflexivity; try lia.
      replace (Z.to_nat (i - collectedBits s))
        with (S (Z.to_nat (i - (collectedBits s + 1)))) by lia.
      reflexivity.
Qed.

Lemma buffer_bit_zero i : 0 <= i -> buffer_bit (replicate 32 0) i = false.
Proof.
  intros Hi. unfold buffer_bit. rewrite nth_lookup.
  destruct (replicate 32 0 !! Z.to_nat (i / 8)) as [v|] eqn:Hv.
  - apply lookup_replicate in Hv. destruct Hv as [-> _]. apply Z.bits_0.
  - apply Z.bits_0.
Qed.

(** C3: 256 bits pushed one after the other into an empty, all-zero
    buffer leave a buffer of 32 bytes in which bit [i mod 8], counted from
    the least significant one, of byte [i / 8] is set exactly when the
    [i]-th pushed bit was true; the fill counter is then 256. *)
Theorem C3_packing_layout (bits : list bool) (s : State) :
  length bits = 256%nat ->
  entropyBuffer s = replicate 32 0 ->
  collectedBits s = 0 ->
  exists s',
    push_all bits s = Some (tt, s') /\
    length (entropyBuffer s') = 32%nat /\
    collectedBits s' = 256 /\
    forall i, 0 <= i < 256 ->
      buffer_bit (entropyBuffer s') i = nth (Z.to_nat i) bits false /\
      (Z.testbit (nth (Z.to_nat (i / 8)) (entropyBuffer s') 0) (i mod 8) = true
       <-> nth (Z.to_nat i) bits false = true).
Proof.
  intros Hbits Hbuf Hn.
  destruct (push_all_layout bits s) as (s' & Hrun & Hcount & Hlen & Hlayout).
  { lia. }
  { rewrite Hn, Hbits. unfold BUFFER_BITS. lia. }
  { rewrite Hbuf. apply length_replicate. }
  exists s'. split; [exact Hrun |]. split; [exact Hlen |].
  split; [rewrite Hcount, Hn, Hbits; reflexivity |].
  intros i Hi.
  assert (buffer_bit (entropyBuffer s') i = nth (Z.to_nat i) bits false) as H.
  { rewrite Hlayout by lia. rewrite Hn, Hbits, Hbuf, buffer_bit_zero by lia.
    destruct (Z.leb_spec 0 i); [|lia].
    destruct (Z.ltb_spec i (0 + Z.of_nat 256)); [|lia].
    cbn [andb orb]. rewrite Z.sub_0_r. reflexivity. }
  split; [exact H |]. unfold buffer_bit in H. rewrite H. reflexivity.
Qed.

Lemma C3_packing_layout_witness :
  length alternating_bits = 256%nat /\
  entropyBuffer initial_state = replicate 32 0 /\
  collectedBits initial_state = 0 /\
  exists s',
    push_all alternating_bits initial_state = Some (tt, s') /\
    buffer_bit (entropyBuffer s') 8 = nth 8 alternating_bits false /\
    buffer_bit (entropyBuffer s') 9 = nth 9 alternating_bits false.
Proof.
  split; [reflexivity |]. split; [reflexivity |]. split; [reflexivity |].
  destruct (C3_packing_layout alternating_bits initial_state
              eq_refl eq_refl eq_refl) as (s' & Hrun & _ & _ & Hbits).
  exists s'. split; [exact Hrun |].
  split.
  - assert (0 <= 8 < 256) as H8 by lia. exact (proj1 (Hbits 8 H8)).
  - assert (0 <= 9 < 256) as H9 by lia. exact (proj1 (Hbits 9 H9)).
Defined.

(** ** The driver loop *)

Lemma readHybridNoiseBit_eq adcRaw hwRandom s :
  readHybridNoiseBit adcRaw hwRandom s
  = Some (negb (Z.land (Z.lxor (shifted_seed adcRaw s) hwRandom) 1 =? 0),
          with_adcSeed (shifted_seed adcRaw s) s).
Proof. reflexivity. Qed.

Lemma drained_eq sha s :
  (32 <= length (entropyBuffer s))%nat ->
  Sketch.hashAndOutput sha s = Some (tt, drained sha s).
Proof.
  intros Hlen. unfold drained.
  destruct (Z.ltb_spec (collectedBits s) BUFFER_BITS) as [H|H].
  - apply sketch_hashAndOutput_short, H.
  - apply sketch_hashAndOutput_full; assumption.
Qed.

Lemma loop_on_iterated sha rawBit s :
  between_iterations s ->
  Sketch.loop_on sha rawBit s = Some (iterated sha rawBit s).
Proof.
  intros [Hn Hlen]. unfold Sketch.loop_on, iterated.
  destruct (hasLastBit s) eqn:Hh.
  - rewrite (bind_Some _ _ _ _ _ (vonNeumannCorrector_armed _ _ _ Hh)).
    destruct (Bool.eqb (lastBit s) rawBit); cbn [fst snd].
    + reflexivity.
    + unfold lift at 1.
      rewrite (bind_Some _ _ _ (Some rawBit)
                 (drained sha (pushed rawBit (with_hasLastBit false s))));
        [reflexivity |].
      rewrite (bind_Some _ _ _ rawBit (with_hasLastBit false s))
        by reflexivity.
      rewrite (bind_Some _ _ _ _ _
                 (packBitIntoBuffer_below rawBit (with_hasLastBit false s)
                    Hn Hlen)).
      assert (32 <= length (entropyBuffer
                              (pushed rawBit (with_hasLastBit false s))))%nat
        as Hlen' by (rewrite pushed_length; cbn [entropyBuffer with_hasLastBit];
                     lia).
      rewrite (bind_Some _ _ _ _ _ (drained_eq sha _ Hlen')).
      reflexivity.
  - rewrite (bind_Some _ _ _ _ _ (vonNeumannCorrector_idle _ _ _ Hh)).
    reflexivity.
Qed.

Lemma drained_between sha s :
  0 <= collectedBits s <= BUFFER_BITS ->
  length (entropyBuffer s) = 32%nat ->
  between_iterations (drained sha s).
Proof.
  unfold BUFFER_BITS. intros Hn Hlen. unfold drained, between_iterations.
  destruct (Z.ltb_spec (collectedBits s) BUFFER_BITS) as [H|H];
    unfold BUFFER_BITS in *.
  - split; [lia | exact Hlen].
  - split; [cbn; lia |].
    rewrite reset_buffer_entropyBuffer by exact Hlen.
    apply length_replicate.
Qed.

Lemma iterated_between sha rawBit s :
  between_iterations s -> between_iterations (snd (iterated sha rawBit s)).
Proof.
  intros [Hn Hlen]. unfold iterated.
  destruct (hasLastBit s); [destruct (Bool.eqb (lastBit s) rawBit)|];
    cbn [snd]; try (split; assumption).
  apply (drained_between sha (pushed rawBit (with_hasLastBit false s))).
  - unfold BUFFER_BITS in *. cbn [collectedBits pushed with_collectedBits
                                    with_hasLastBit]. lia.
  - rewrite pushed_length. exact Hlen.
Qed.

Lemma loop_iterated sha adcRaw hwRandom s :
  between_iterations s ->
  Sketch.loop sha adcRaw hwRandom s
  = Some (iterated sha
            (negb (Z.land (Z.lxor (shifted_seed adcRaw s) hwRandom) 1 =? 0))
            (with_adcSeed (shifted_seed adcRaw s) s)).
Proof.
  intros Hs. unfold Sketch.loop.
  rewrite (bind_Some _ _ _ _ _ (readHybridNoiseBit_eq adcRaw hwRandom s)).
  apply loop_on_iterated. exact Hs.
Qed.

Lemma initial_between : between_iterations initial_state.
Proof. split; [unfold BUFFER_BITS; cbn; lia | reflexivity]. Qed.

Lemma reachable_between sha s : reachable sha s -> between_iterations s.
Proof.
  induction 1 as [|s adcRaw hwRandom p s' _ IH Hloop].
  - apply initial_between.
  - rewrite (loop_iterated sha adcRaw hwRandom s IH) in Hloop.
    injection Hloop as Heq.
    pose proof (iterated_between sha
                  (negb (Z.land (Z.lxor (shifted_seed adcRaw s) hwRandom) 1
                         =? 0))
                  (with_adcSeed (shifted_seed adcRaw s) s) IH) as Hb.
    rewrite Heq in Hb. exact Hb.
Qed.

Lemma reachable_run sha inputs : forall s s',
  reachable sha s ->
  loop_run sha inputs s = Some s' ->
  reachable sha s'.
Proof.
  induction inputs as [|[adcRaw hwRandom] inputs IH]; intros s s' Hs Hrun.
  - injection Hrun as <-. exact Hs.
  - cbn [loop_run] in Hrun.
    destruct (Sketch.loop sha adcRaw hwRandom s) as [[p s1]|] eqn:Hloop;
      [| discriminate Hrun].
    apply (IH s1 s'); [| exact Hrun].
    apply (reachable_loop sha s adcRaw hwRandom p s1 Hs Hloop).
Qed.

(** C7: in every state in which an iteration of [loop] starts the fill
    counter is at least 0 and below 256 and the buffer has its 32 bytes;
    the iteration runs to its end without a store outside the buffer;
    where it calls [packBitIntoBuffer] the counter is below 256, so the
    byte index is below 32, and the counter is at most 256 after the
    push, before [hashAndOutput] drains the buffer. *)
Theorem C7_fill_counter_bounds (sha : list Z -> list Z) (s : State) :
  reachable sha s ->
  0 <= collectedBits s <= BUFFER_BITS /\
  collectedBits s <> BUFFER_BITS /\
  length (entropyBuffer s) = 32%nat /\
  (forall adcRaw hwRandom,
      exists pushed_bit s',
        Sketch.loop sha adcRaw hwRandom s = Some (pushed_bit, s') /\
        0 <= collectedBits s' < BUFFER_BITS) /\
  (forall adcRaw hwRandom rawBit s0 outputBit s1,
      readHybridNoiseBit adcRaw hwRandom s = Some (rawBit, s0) ->
      vonNeumannCorrector rawBit None s0 = Some ((true, outputBit), s1) ->
      collectedBits s1 <> BUFFER_BITS /\
      0 <= collectedBits s1 / 8 < sizeof_entropyBuffer /\
      exists correctedBit s2,
        outputBit = Some correctedBit /\
        packBitIntoBuffer correctedBit s1 = Some (tt, s2) /\
        0 <= collectedBits s2 <= BUFFER_BITS /\
        length (entropyBuffer s2) = 32%nat).
Proof.
  intros Hreach. pose proof (reachable_between sha s Hreach) as [Hn Hlen].
  split; [lia |]. split; [lia |]. split; [exact Hlen |]. split.
  - intros adcRaw hwRandom.
    rewrite (loop_iterated sha adcRaw hwRandom s (conj Hn Hlen)).
    pose proof (iterated_between sha
                  (negb (Z.land (Z.lxor (shifted_seed adcRaw s) hwRandom) 1
                         =? 0))
                  (with_adcSeed (shifted_seed adcRaw s) s) (conj Hn Hlen))
      as [Hn' _].
    destruct (iterated sha _ (with_adcSeed (shifted_seed adcRaw s) s))
      as [p s'].
    exists p, s'. split; [reflexivity | exact Hn'].
  - intros adcRaw hwRandom rawBit s0 outputBit s1 Hread Hcorr.
    rewrite readHybridNoiseBit_eq in Hread. injection Hread as <- <-.
    set (seed := shifted_seed adcRaw s) in *.
    set (rawBit := negb (Z.land (Z.lxor seed hwRandom) 1 =? 0)) in *.
    assert (collectedBits s1 = collectedBits s /\
            entropyBuffer s1 = entropyBuffer s /\
            outputBit = Some rawBit) as (Hn1 & Hbuf1 & Hout).
    { destruct (hasLastBit (with_adcSeed seed s)) eqn:Hh.
      - rewrite (vonNeumannCorrector_armed _ _ _ Hh) in Hcorr.
        destruct (Bool.eqb (lastBit (with_adcSeed seed s)) rawBit);
          [discriminate Hcorr |].
        injection Hcorr as <- <-. repeat split.
      - rewrite (vonNeumannCorrector_idle _ _ _ Hh) in Hcorr.
        discriminate Hcorr. }
    assert (0 <= collectedBits s1 < BUFFER_BITS) as Hn1' by (rewrite Hn1; lia).
    assert (length (entropyBuffer s1) = 32%nat) as Hlen1
      by (rewrite Hbuf1; exact Hlen).
    unfold BUFFER_BITS in *.
    split; [lia |]. split.
    { change sizeof_entropyBuffer with 32.
      split; [apply Z.div_pos | apply Z.div_lt_upper_bound]; lia. }
    exists rawBit, (pushed rawBit s1). split; [exact Hout |].
    split; [apply packBitIntoBuffer_below; assumption |].
    split.
    + cbn [collectedBits pushed with_collectedBits]. lia.
    + rewrite pushed_length. exact Hlen1.
Qed.

Lemma C7_fill_counter_bounds_witness :
  reachable SHA256.sha256 almost_full_state /\
  collectedBits almost_full_state = 255 /\
  (exists s0 s1 s2,
      readHybridNoiseBit 0 0 almost_full_state = Some (false, s0) /\
      vonNeumannCorrector false None s0 = Some ((true, Some false), s1) /\
      collectedBits s1 <> BUFFER_BITS /\
      0 <= collectedBits s1 / 8 < sizeof_entropyBuffer /\
      packBitIntoBuffer false s1 = Some (tt, s2) /\
      0 <= collectedBits s2 <= BUFFER_BITS /\
      collectedBits s2 = 256 /\
      length (entropyBuffer s2) = 32%nat) /\
  exists pushed_bit s',
    Sketch.loop SHA256.sha256 0 0 almost_full_state = Some (pushed_bit, s') /\
    0 <= collectedBits s' < BUFFER_BITS /\
    pushed_bit = Some false /\
    collectedBits s' = 0 /\
    count_calls is_line_break (world s') = 1%nat.
Proof.
  assert (reachable SHA256.sha256 almost_full_state) as Hreach.
  { apply (reachable_run SHA256.sha256 alternating_inputs initial_state).
    - apply reachable_setup.
    - vm_compute. reflexivity. }
  destruct (C7_fill_counter_bounds SHA256.sha256 almost_full_state Hreach)
    as (_ & _ & _ & Hloop & Hpush).
  split; [exact Hreach |].
  split; [vm_compute; reflexivity |].
  split.
  - set (s0 := with_adcSeed (shifted_seed 0 almost_full_state)
                 almost_full_state).
    set (s1 := with_hasLastBit false s0).
    assert (readHybridNoiseBit 0 0 almost_full_state = Some (false, s0))
      as Hread by (vm_compute; reflexivity).
    assert (vonNeumannCorrector false None s0 = Some ((true, Some false), s1))
      as Hcorr by (vm_compute; reflexivity).
    destruct (Hpush 0 0 false s0 (Some false) s1 Hread Hcorr)
      as (Hne & Hbyte & correctedBit & s2 & Hout & Hpack & Hn2 & Hlen2).
    injection Hout as <-.
    exists s0, s1, s2.
    split; [exact Hread |]. split; [exact Hcorr |].
    split; [exact Hne |]. split; [exact Hbyte |].
    split; [exact Hpack |]. split; [exact Hn2 |].
    split; [| exact Hlen2].
    assert (packBitIntoBuffer false s1 = Some (tt, pushed false s1))
      as Hpushed by (vm_compute; reflexivity).
    rewrite Hpushed in Hpack. injection Hpack as <-.
    vm_compute. reflexivity.
  - destruct (Hloop 0 0) as (p & s' & Hrun & Hn').
    exists p, s'. split; [exact Hrun |]. split; [exact Hn' |].
    assert ((fun r => (fst r, collectedBits (snd r),
                       count_calls is_line_break (world (snd r))))
              <$> Sketch.loop SHA256.sha256 0 0 almost_full_state
            = Some (Some false, 0, 1%nat)) as Hval
      by (vm_compute; reflexivity).
    rewrite Hrun in Hval. cbn [fmap option_fmap option_map fst snd] in Hval.
    injection Hval as -> -> ->. repeat split.
Defined.

(** ** The end-to-end run *)

Lemma drive_cons sha r l s :
  Sketch.drive sha (r :: l) s
  = match Sketch.loop_on sha r s with
    | Some (p, s1) =>
        match Sketch.drive sha l s1 with
        | Some (ps, s2) =>
            Some (match p with Some b => b :: ps | None => ps end, s2)
        | None => None
        end
    | None => None
    end.
Proof.
  cbn [Sketch.drive]. unfold bind, ret.
  destruct (Sketch.loop_on sha r s) as [[p s1]|]; [|reflexivity].
  destruct (Sketch.drive sha l s1) as [[ps s2]|]; reflexivity.
Qed.

Lemma drive_app sha l1 : forall l2 s,
  Sketch.drive sha (l1 ++ l2) s
  = match Sketch.drive sha l1 s with
    | Some (a1, s1) =>
        match Sketch.drive sha l2 s1 with
        | Some (a2, s2) => Some (a1 ++ a2, s2)
        | None => None
        end
    | None => None
    end.
Proof.
  induction l1 as [|r l1 IH]; intros l2 s.
  - cbn [app Sketch.drive]. unfold ret.
    destruct (Sketch.drive sha l2 s) as [[a2 s2]|]; reflexivity.
  - cbn [app]. rewrite !drive_cons.
    destruct (Sketch.loop_on sha r s) as [[p s1]|]; [|reflexivity].
    rewrite IH.
    destruct (Sketch.drive sha l1 s1) as [[a1 s2]|]; [|reflexivity].
    destruct (Sketch.drive sha l2 s2) as [[a2 s3]|]; [|reflexivity].
    destruct p; reflexivity.
Qed.

(** What the first 511 raw bits of the run leave behind. *)
Lemma alternating_run_511 sha :
  exists accepted s,
    Sketch.drive sha (take 511 alternating_raw) initial_state
    = Some (accepted, s) /\
    accepted = take 255 alternating_bits /\
    collectedBits s = 255 /\
    entropyBuffer s = replicate 32 85 /\
    hasLastBit s = true /\
    lastBit s = true /\
    count_calls is_sha256 (world s) = 0%nat /\
    count_calls is_line_break (world s) = 0%nat /\
    serial_stream (world s) = [].
Proof.
  destruct (Sketch.drive sha (take 511 alternating_raw) initial_state)
    as [[accepted s]|] eqn:Hrun; vm_compute in Hrun; [|discriminate Hrun].
  injection Hrun as <- <-.
  eexists. eexists. split; [reflexivity |].
  repeat split; vm_compute; reflexivity.
Qed.

(** C9: the 512 raw bits 0,1,1,0,0,1,1,0,... fed to the driver from its
    initial state make it push 256 bits, one per pair, and send exactly
    one block: one hash is computed, of a buffer whose bytes are all
    01010101 in binary, and one line is written; the buffer is empty
    again afterwards. *)
Theorem C9_alternating_run (sha : list Z -> list Z) :
  length alternating_raw = 512%nat /\
  exists accepted s',
    Sketch.drive sha alternating_raw initial_state = Some (accepted, s') /\
    length accepted = 256%nat /\
    accepted = alternating_bits /\
    count_calls is_sha256 (world s') = 1%nat /\
    count_calls is_line_break (world s') = 1%nat /\
    serial_stream (world s')
    = hex_of_digest (digest_array (sha (replicate 32 85)))
        ++ Print_println_terminator /\
    collectedBits s' = 0 /\
    entropyBuffer s' = replicate 32 0 /\
    pending s' = [].
Proof.
  split; [reflexivity |].
  destruct (alternating_run_511 sha)
    as (acc & s & Hrun & Hacc & Hn & Hbuf & Hh & Hl & Hsha & Hbrk & Hser).
  assert (between_iterations s) as Hs.
  { split; [rewrite Hn; unfold BUFFER_BITS; lia |].
    rewrite Hbuf. reflexivity. }
  set (s1 := pushed false (with_hasLastBit false s)).
  assert (collectedBits s1 = 256) as Hn1
    by (unfold s1; cbn [collectedBits pushed with_collectedBits
                          with_hasLastBit]; lia).
  assert (entropyBuffer s1 = replicate 32 85) as Hbuf1 by exact Hbuf.
  assert (world s1 = world s) as Hw1 by reflexivity.
  assert (Sketch.loop_on sha false s
          = Some (Some false,
                  after_calls [DelayMicroseconds 50]
                    (reset_buffer (after_calls (sketch_calls sha s1) s1))))
    as Hlast.
  { rewrite (loop_on_iterated sha false s Hs). unfold iterated.
    rewrite Hh, Hl. cbn [Bool.eqb]. fold s1. unfold drained.
    rewrite Hn1. reflexivity. }
  exists (acc ++ [false]),
    (after_calls [DelayMicroseconds 50]
       (reset_buffer (after_calls (sketch_calls sha s1) s1))).
  split.
  { change alternating_raw with (take 511 alternating_raw ++ [false]).
    rewrite drive_app, Hrun. cbn [Sketch.drive].
    rewrite (bind_Some _ _ _ _ _ Hlast). reflexivity. }
  assert (world (after_calls [DelayMicroseconds 50]
                   (reset_buffer (after_calls (sketch_calls sha s1) s1)))
          = (world s ++ map (observe s1) (sketch_calls sha s1))
              ++ [observe (reset_buffer (after_calls (sketch_calls sha s1) s1))
                    (DelayMicroseconds 50)]) as Hw.
  { rewrite after_calls_world. cbn [map].
    change (world (reset_buffer (after_calls (sketch_calls sha s1) s1)))
      with (world (after_calls (sketch_calls sha s1) s1)).
    rewrite after_calls_world, Hw1. reflexivity. }
  split; [rewrite Hacc; reflexivity |].
  split; [rewrite Hacc; reflexivity |].
  split.
  { rewrite Hw, !count_calls_app, Hsha, count_calls_observe,
      sketch_calls_hashes. reflexivity. }
  split.
  { rewrite Hw, !count_calls_app, Hbrk, count_calls_observe,
      sketch_calls_line_breaks. reflexivity. }
  split.
  { rewrite Hw, !serial_stream_app, Hser, serial_stream_observe.
    unfold sketch_calls. cbv zeta. cbn [flat_map serial_bytes app].
    rewrite sketch_calls_stream, Hbuf1. cbn [serial_stream flat_map].
    rewrite app_nil_r. reflexivity. }
  split; [reflexivity |].
  split; [| reflexivity].
  change (entropyBuffer
            (after_calls [DelayMicroseconds 50]
               (reset_buffer (after_calls (sketch_calls sha s1) s1))))
    with (entropyBuffer (reset_buffer (after_calls (sketch_calls sha s1) s1))).
  apply reset_buffer_entropyBuffer. rewrite after_calls_entropyBuffer, Hbuf1.
  reflexivity.
Qed.

(** ** The run with SHA-256 in place of the hash *)

Lemma sha256_abc :
  string_of_list_ascii (hex_of_digest (SHA256.sha256 [97; 98; 99]))
  = "BA7816BF8F01CFEA414140DE5DAE2223B00361A396177A9CB410FF61F20015AD"%string.
Proof. vm_compute. reflexivity. Qed.

Lemma alternating_run_sha256 :
  (fun r => string_of_list_ascii (serial_stream (world (snd r))))
    <$> Sketch.drive SHA256.sha256 alternating_raw initial_state
  = Some (String.append
            "84126D0DD850199BE29021AADBAEE68CB9199047B1CB7EC9894DDB1E3562783C"
            (string_of_list_ascii Print_println_terminator)).
Proof. vm_compute. reflexivity. Qed.

(** * Further properties of the sketch *)

(** ** The hybrid entropy source *)

Lemma odd_land_1 x : Z.odd (Z.land x 1) = Z.odd x.
Proof.
  rewrite <- !Z.bit0_odd, Z.land_spec. change (Z.testbit 1 0) with true.
  apply andb_true_r.
Qed.

Lemma land_1_mod_2 x : Z.land x 1 = x mod 2.
Proof. apply (Z.land_ones x 1). lia. Qed.

Lemma nonzero_land_1 x : negb (Z.land x 1 =? 0) = Z.odd x.
Proof.
  rewrite land_1_mod_2, Zmod_odd. destruct (Z.odd x); reflexivity.
Qed.

Lemma shifted_seed_bit0 adcRaw s :
  Z.testbit (shifted_seed adcRaw s) 0 = Z.odd adcRaw.
Proof.
  unfold shifted_seed, UINT32_MOD.
  rewrite Z.lor_spec, Z.mod_pow2_bits_low, Z.shiftl_spec_low by lia.
  rewrite Z.bit0_odd, odd_land_1. reflexivity.
Qed.

Lemma shifted_seed_bit_succ adcRaw s k :
  0 <= k < 31 ->
  Z.testbit (shifted_seed adcRaw s) (k + 1) = Z.testbit (adcSeed s) k.
Proof.
  intros Hk. unfold shifted_seed, UINT32_MOD.
  rewrite Z.lor_spec, Z.mod_pow2_bits_low, Z.shiftl_spec by lia.
  replace (k + 1 - 1) with k by lia.
  rewrite land_1_mod_2. change 2 with (2 ^ 1).
  rewrite Z.mod_pow2_bits_high by lia. apply orb_false_r.
Qed.

Lemma shifted_seed_range adcRaw s :
  0 <= shifted_seed adcRaw s < UINT32_MOD.
Proof.
  assert (shifted_seed adcRaw s mod UINT32_MOD = shifted_seed adcRaw s) as H.
  { apply Z.bits_inj'. intros n Hn. unfold UINT32_MOD.
    destruct (Z.lt_ge_cases n 32) as [Hlt|Hge].
    - apply Z.mod_pow2_bits_low. lia.
    - rewrite Z.mod_pow2_bits_high by lia. unfold shifted_seed, UINT32_MOD.
      rewrite Z.lor_spec, Z.mod_pow2_bits_high by lia.
      rewrite land_1_mod_2. change 2 with (2 ^ 1).
      rewrite Z.mod_pow2_bits_high by lia. reflexivity. }
  rewrite <- H. apply Z.mod_pos_bound. unfold UINT32_MOD. lia.
Qed.

(** X1: the bit that [readHybridNoiseBit] returns is the exclusive or of
    the least significant bits of the analog sample and of the hardware
    random word of this call; the samples of earlier calls, kept in
    [adcSeed], have no part in it. *)
Theorem readHybridNoiseBit_xor_of_lsbs (adcRaw hwRandom : Z) (s : State) :
  fst <$> readHybridNoiseBit adcRaw hwRandom s
  = Some (xorb (Z.odd adcRaw) (Z.odd hwRandom)).
Proof.
  rewrite readHybridNoiseBit_eq. cbn [fmap option_fmap option_map fst].
  rewrite nonzero_land_1, <- !Z.bit0_odd, Z.lxor_spec, shifted_seed_bit0.
  rewrite Z.bit0_odd. reflexivity.
Qed.

(** X2: [readHybridNoiseBit] keeps [adcSeed] a 32-bit shift register: after
    the call it is below 2^32, its bit 0 is the least significant bit of
    the sample, its bit [k + 1] is the former bit [k], the former bit 31
    is gone; no other global changes and nothing is sent. *)
Theorem readHybridNoiseBit_shift_register (adcRaw hwRandom : Z) (s : State) :
  exists rawBit s',
    readHybridNoiseBit adcRaw hwRandom s = Some (rawBit, s') /\
    0 <= adcSeed s' < UINT32_MOD /\
    Z.testbit (adcSeed s') 0 = Z.odd adcRaw /\
    (forall k, 0 <= k < 31 ->
               Z.testbit (adcSeed s') (k + 1) = Z.testbit (adcSeed s) k) /\
    (forall k, 32 <= k -> Z.testbit (adcSeed s') k = false) /\
    s' = with_adcSeed (adcSeed s') s.
Proof.
  eexists. eexists. split; [apply readHybridNoiseBit_eq |].
  cbn [adcSeed with_adcSeed].
  split; [apply shifted_seed_range |].
  split; [apply shifted_seed_bit0 |].
  split; [intros k Hk; apply shifted_seed_bit_succ, Hk |].
  split; [| reflexivity].
  intros k Hk. pose proof (shifted_seed_range adcRaw s) as [Hlo Hhi].
  rewrite <- (Z.mod_small _ _ (conj Hlo Hhi)). unfold UINT32_MOD.
  apply Z.mod_pow2_bits_high. lia.
Qed.

(** ** The corrector as its caller sees it *)

(** X3: a call of [vonNeumannCorrector] returns [true] exactly when a bit
    was pending and differs from the current one; it writes [outputBit]
    exactly then, with the current bit, and otherwise leaves the caller's
    variable as it was; it always flips [hasLastBit], stores the current
    bit in [lastBit] only when none was pending, and touches neither the
    buffer, the fill counter, the shift register nor the serial port. *)
Theorem vonNeumannCorrector_contract (currentBit : bool)
    (outputBit : option bool) (s : State) :
  exists r s',
    vonNeumannCorrector currentBit outputBit s = Some (r, s') /\
    (fst r = true <-> hasLastBit s = true /\ lastBit s <> currentBit) /\
    snd r = (if fst r then Some currentBit else outputBit) /\
    hasLastBit s' = negb (hasLastBit s) /\
    lastBit s' = (if hasLastBit s then lastBit s else currentBit) /\
    entropyBuffer s' = entropyBuffer s /\
    collectedBits s' = collectedBits s /\
    adcSeed s' = adcSeed s /\
    world s' = world s.
Proof.
  destruct (hasLastBit s) eqn:Hh.
  - eexists. eexists.
    split; [apply (vonNeumannCorrector_armed _ _ _ Hh) |].
    destruct (Bool.eqb_spec (lastBit s) currentBit) as [He|He];
      cbn [fst snd hasLastBit lastBit entropyBuffer collectedBits adcSeed
           world with_hasLastBit negb].
    + split; [split; [discriminate | intros [_ H]; contradiction] |].
      repeat split.
    + split; [split; [intros _; split; [reflexivity | exact He]
                     | reflexivity] |].
      repeat split.
  - eexists. eexists.
    split; [apply (vonNeumannCorrector_idle _ _ _ Hh) |].
    cbn. repeat split; try reflexivity; try discriminate.
    intros [H _]. discriminate H.
Qed.

(** ** One iteration of the driver, case by case *)

Lemma pushed_world bit s : world (pushed bit s) = world s.
Proof. destruct bit; reflexivity. Qed.

Lemma iterated_cases sha rawBit s :
  between_iterations s ->
  let s0 := with_hasLastBit false s in
  let it := iterated sha rawBit s in
  (pushing rawBit s = false /\
   fst it = None /\
   collectedBits (snd it) = collectedBits s /\
   entropyBuffer (snd it) = entropyBuffer s /\
   exists o, what o = DelayMicroseconds 50 /\
             world (snd it) = world s ++ [o])
  \/
  (pushing rawBit s = true /\
   collectedBits s + 1 < BUFFER_BITS /\
   fst it = Some rawBit /\
   collectedBits (snd it) = collectedBits s + 1 /\
   entropyBuffer (snd it) = entropyBuffer (pushed rawBit s0) /\
   exists o, what o = DelayMicroseconds 50 /\
             world (snd it) = world s ++ [o])
  \/
  (pushing rawBit s = true /\
   collectedBits s + 1 = BUFFER_BITS /\
   fst it = Some rawBit /\
   collectedBits (snd it) = 0 /\
   entropyBuffer (snd it) = replicate 32 0 /\
   exists o, what o = DelayMicroseconds 50 /\
             world (snd it)
             = world s
                 ++ map (observe (pushed rawBit s0))
                        (sketch_calls sha (pushed rawBit s0))
                 ++ [o]).
Proof.
  intros [Hn Hlen]. cbv zeta. unfold iterated, pushing.
  destruct (hasLastBit s); [destruct (Bool.eqb (lastBit s) rawBit)|];
    cbn [andb negb fst snd].
  - left. repeat split.
    exists (observe (with_hasLastBit false s) (DelayMicroseconds 50)).
    split; reflexivity.
  - set (s1 := pushed rawBit (with_hasLastBit false s)).
    assert (collectedBits s1 = collectedBits s + 1) as Hn1 by reflexivity.
    unfold drained. rewrite Hn1.
    destruct (Z.ltb_spec (collectedBits s + 1) BUFFER_BITS) as [Hlt|Hge].
    + right. left. split; [reflexivity |]. split; [exact Hlt |].
      repeat split.
      exists (observe s1 (DelayMicroseconds 50)). split; [reflexivity |].
      rewrite after_calls_world. unfold s1. rewrite pushed_world.
      reflexivity.
    + right. right. split; [reflexivity |].
      split; [unfold BUFFER_BITS in *; lia |].
      split; [reflexivity |]. split; [reflexivity |].
      split.
      { change (entropyBuffer
                  (after_calls [DelayMicroseconds 50]
                     (reset_buffer (after_calls (sketch_calls sha s1) s1))))
          with (entropyBuffer
                  (reset_buffer (after_calls (sketch_calls sha s1) s1))).
        apply reset_buffer_entropyBuffer.
        rewrite after_calls_entropyBuffer. unfold s1.
        rewrite pushed_length. exact Hlen. }
      exists (observe (reset_buffer (after_calls (sketch_calls sha s1) s1))
                (DelayMicroseconds 50)).
      split; [reflexivity |].
      rewrite after_calls_world. cbn [map].
      change (world (reset_buffer (after_calls (sketch_calls sha s1) s1)))
        with (world (after_calls (sketch_calls sha s1) s1)).
      rewrite after_calls_world, <- app_assoc. unfold s1 at 1.
      rewrite pushed_world. reflexivity.
  - left. repeat split.
    exists (observe (with_hasLastBit true (with_lastBit rawBit s))
              (DelayMicroseconds 50)).
    split; reflexivity.
Qed.

Lemma iterated_corrector sha rawBit s :
  fst (iterated sha rawBit s)
  = (if pushing rawBit s then Some rawBit else None) /\
  hasLastBit (snd (iterated sha rawBit s)) = negb (hasLastBit s) /\
  lastBit (snd (iterated sha rawBit s))
  = (if hasLastBit s then lastBit s else rawBit) /\
  adcSeed (snd (iterated sha rawBit s)) = adcSeed s.
Proof.
  unfold iterated, pushing.
  destruct (hasLastBit s); [destruct (Bool.eqb (lastBit s) rawBit)|];
    cbn [andb negb fst snd]; try (repeat split; reflexivity).
  unfold drained.
  destruct (collectedBits (pushed rawBit (with_hasLastBit false s))
            <? BUFFER_BITS); destruct rawBit; repeat split; reflexivity.
Qed.

Lemma drive_driven sha raws : forall s,
  between_iterations s ->
  Sketch.drive sha raws s = Some (driven sha raws s).
Proof.
  induction raws as [|r raws IH]; intros s Hs; [reflexivity |].
  rewrite drive_cons, (loop_on_iterated sha r s Hs).
  pose proof (iterated_between sha r s Hs) as Hs'.
  cbn [driven]. destruct (iterated sha r s) as [p s1]. cbn [fst snd] in *.
  rewrite (IH s1 Hs'). destruct (driven sha raws s1) as [ps s2].
  reflexivity.
Qed.

Lemma driven_between sha raws : forall s,
  between_iterations s -> between_iterations (snd (driven sha raws s)).
Proof.
  induction raws as [|r raws IH]; intros s Hs; [exact Hs |].
  cbn [driven snd]. apply IH, iterated_between, Hs.
Qed.

Lemma driven_app sha l1 : forall l2 s,
  driven sha (l1 ++ l2) s
  = (fst (driven sha l1 s) ++ fst (driven sha l2 (snd (driven sha l1 s))),
     snd (driven sha l2 (snd (driven sha l1 s)))).
Proof.
  induction l1 as [|r l1 IH]; intros l2 s.
  - cbn [app driven fst snd]. destruct (driven sha l2 s); reflexivity.
  - cbn [app driven fst snd]. rewrite IH. cbn [fst snd].
    destruct (fst (iterated sha r s)); reflexivity.
Qed.

Lemma hashed_inputs_app w1 w2 :
  hashed_inputs (w1 ++ w2) = hashed_inputs w1 ++ hashed_inputs w2.
Proof. unfold hashed_inputs. apply flat_map_app. Qed.

Lemma hashed_inputs_byte_calls s cells :
  hashed_inputs (map (observe s) (flat_map byte_calls cells)) = [].
Proof.
  induction cells as [|d cells IH]; [reflexivity |].
  cbn [flat_map]. rewrite map_app, hashed_inputs_app, IH.
  unfold byte_calls. destruct (d <? 16); reflexivity.
Qed.

Lemma hashed_inputs_sketch_calls sha s :
  hashed_inputs (map (observe s) (sketch_calls sha s))
  = [take 32 (entropyBuffer s)].
Proof.
  unfold sketch_calls, sketch_print_calls. cbv zeta.
  cbn [map]. unfold hashed_inputs at 1. cbn [flat_map hashed_input what observe].
  fold (hashed_inputs
          (map (observe s)
             (flat_map byte_calls
                (digest_cells
                   (digest_array (sha (take 32 (entropyBuffer s)))))
              ++ [SerialWrite Print_println_terminator]))).
  rewrite map_app, hashed_inputs_app, hashed_inputs_byte_calls.
  reflexivity.
Qed.

Lemma serial_stream_sketch_calls sha s :
  serial_stream (map (observe s) (sketch_calls sha s))
  = line_of sha (take 32 (entropyBuffer s)).
Proof.
  rewrite serial_stream_observe. unfold sketch_calls. cbv zeta.
  cbn [flat_map serial_bytes app]. apply sketch_calls_stream.
Qed.

Lemma iterated_outcome sha rawBit s :
  between_iterations s ->
  let s0 := with_hasLastBit false s in
  let it := iterated sha rawBit s in
  collectedBits (snd it)
  = (if filling rawBit s then 0
     else if pushing rawBit s then collectedBits s + 1 else collectedBits s) /\
  serial_stream (world (snd it))
  = serial_stream (world s)
      ++ (if filling rawBit s
          then line_of sha (entropyBuffer (pushed rawBit s0)) else []) /\
  hashed_inputs (world (snd it))
  = hashed_inputs (world s)
      ++ (if filling rawBit s then [entropyBuffer (pushed rawBit s0)] else []) /\
  count_calls is_line_break (world (snd it))
  = (count_calls is_line_break (world s)
     + (if filling rawBit s then 1 else 0))%nat /\
  count_calls is_sha256 (world (snd it))
  = (count_calls is_sha256 (world s)
     + (if filling rawBit s then 1 else 0))%nat.
Proof.
  intros Hs. pose proof Hs as [Hn Hlen]. cbv zeta.
  assert (forall o w, what o = DelayMicroseconds 50 ->
            serial_stream (w ++ [o]) = serial_stream w /\
            hashed_inputs (w ++ [o]) = hashed_inputs w /\
            count_calls is_line_break (w ++ [o]) = count_calls is_line_break w /\
            count_calls is_sha256 (w ++ [o]) = count_calls is_sha256 w) as Hdelay.
  { intros o w Ho.
    rewrite serial_stream_app, hashed_inputs_app, !count_calls_app.
    unfold serial_stream, hashed_inputs, hashed_input, count_calls.
    cbn [flat_map List.filter]. rewrite Ho. cbn.
    rewrite !app_nil_r, !Nat.add_0_r. repeat split. }
  destruct (iterated_cases sha rawBit s Hs)
    as [(Hp & _ & Hc & _ & o & Ho & Hw)
       |[(Hp & Hlt & _ & Hc & _ & o & Ho & Hw)
        |(Hp & Heq & _ & Hc & _ & o & Ho & Hw)]];
    unfold filling; rewrite Hp, Hc, Hw; cbn [andb].
  - destruct (Hdelay o (world s) Ho) as (-> & -> & -> & ->).
    rewrite !app_nil_r, !Nat.add_0_r. repeat split.
  - apply Z.ltb_lt in Hlt. rewrite Hlt. cbn [negb].
    destruct (Hdelay o (world s) Ho) as (-> & -> & -> & ->).
    rewrite !app_nil_r, !Nat.add_0_r. repeat split.
  - assert ((collectedBits s + 1 <? BUFFER_BITS) = false) as Hge
      by (apply Z.ltb_ge; lia).
    rewrite Hge. cbn [negb]. rewrite app_assoc.
    destruct (Hdelay o (world s
                          ++ map (observe (pushed rawBit (with_hasLastBit false s)))
                               (sketch_calls sha
                                  (pushed rawBit (with_hasLastBit false s))))
                Ho) as (-> & -> & -> & ->).
    rewrite serial_stream_app, hashed_inputs_app, !count_calls_app.
    rewrite serial_stream_sketch_calls, hashed_inputs_sketch_calls.
    rewrite !count_calls_observe, sketch_calls_line_breaks, sketch_calls_hashes.
    rewrite take_ge
      by (rewrite pushed_length; cbn [entropyBuffer with_hasLastBit]; lia).
    repeat split.
Qed.

(** ** Runs of the driver *)

(** X4: a raw stream of one repeated bit, of any length, makes the driver
    push nothing, hash nothing and send nothing, and leaves the buffer and
    the fill counter as they were; this holds from every state between
    two iterations whose pending bit, if there is one, is that bit. *)
Theorem constant_stream_discarded (sha : list Z -> list Z) (n : nat)
    (b : bool) (s : State) :
  between_iterations s ->
  (hasLastBit s = true -> lastBit s = b) ->
  exists s',
    Sketch.drive sha (replicate n b) s = Some ([], s') /\
    collectedBits s' = collectedBits s /\
    entropyBuffer s' = entropyBuffer s /\
    serial_stream (world s') = serial_stream (world s) /\
    hashed_inputs (world s') = hashed_inputs (world s).
Proof.
  intros Hs Hb. rewrite (drive_driven sha _ s Hs).
  revert s Hs Hb. induction n as [|n IH]; intros s Hs Hb.
  - exists s. repeat split.
  - cbn [replicate driven].
    assert (pushing b s = false) as Hp.
    { unfold pushing. destruct (hasLastBit s); [|reflexivity].
      rewrite (Hb eq_refl), Bool.eqb_reflx. reflexivity. }
    destruct (iterated_corrector sha b s) as (Hfst & Hh' & Hl' & _).
    destruct (iterated_outcome sha b s Hs) as (Hc & Hser & Hin & _).
    destruct (iterated_cases sha b s Hs)
      as [(_ & _ & _ & Hbuf & _)|[(Hp' & _)|(Hp' & _)]];
      try (rewrite Hp in Hp'; discriminate Hp').
    unfold filling in Hc, Hser, Hin. rewrite Hp in Hfst, Hc, Hser, Hin.
    cbn [andb] in Hc, Hser, Hin. rewrite app_nil_r in Hser, Hin.
    destruct (IH (snd (iterated sha b s))) as (s' & Hrun & Hc' & Hbuf' & Hser' & Hin').
    { apply iterated_between, Hs. }
    { rewrite Hl'. destruct (hasLastBit s); [|reflexivity].
      intros _. apply Hb. reflexivity. }
    exists s'. rewrite Hfst. injection Hrun as Hrun.
    rewrite Hrun. cbn [fst snd].
    split; [reflexivity |]. repeat split; congruence.
Qed.

Lemma constant_stream_discarded_witness :
  between_iterations initial_state /\
  (hasLastBit initial_state = true -> lastBit initial_state = false) /\
  exists s',
    Sketch.drive SHA256.sha256 (replicate 1000 false) initial_state
    = Some ([], s') /\
    serial_stream (world s') = [].
Proof.
  assert (hasLastBit initial_state = true -> lastBit initial_state = false)
    as Hb by (intros H; discriminate H).
  split; [apply initial_between |]. split; [exact Hb |].
  destruct (constant_stream_discarded SHA256.sha256 1000 false initial_state
              initial_between Hb) as (s' & Hrun & _ & _ & Hser & _).
  exists s'. split; [exact Hrun | exact Hser].
Defined.

Lemma driven_accounting sha raws : forall s,
  between_iterations s ->
  256 * Z.of_nat (count_calls is_line_break (world (snd (driven sha raws s))))
    + collectedBits (snd (driven sha raws s))
  = 256 * Z.of_nat (count_calls is_line_break (world s))
    + collectedBits s + Z.of_nat (length (fst (driven sha raws s))) /\
  (count_calls is_sha256 (world (snd (driven sha raws s)))
   - count_calls is_sha256 (world s)
   = count_calls is_line_break (world (snd (driven sha raws s)))
     - count_calls is_line_break (world s))%nat /\
  (count_calls is_line_break (world s)
   <= count_calls is_line_break (world (snd (driven sha raws s))))%nat /\
  (count_calls is_sha256 (world s)
   <= count_calls is_sha256 (world (snd (driven sha raws s))))%nat.
Proof.
  induction raws as [|r raws IH]; intros s Hs.
  - cbn [driven fst snd length]. lia.
  - cbn [driven fst snd].
    pose proof (iterated_between sha r s Hs) as Hs'.
    destruct (IH _ Hs') as (IHacc & IHsha & IHle & IHle').
    destruct (iterated_corrector sha r s) as (Hfst & _).
    destruct (iterated_outcome sha r s Hs) as (Hc & _ & _ & Hbrk & Hsha).
    destruct Hs as [Hn _]. unfold BUFFER_BITS in Hn.
    rewrite Hfst. unfold filling in *.
    destruct (pushing r s); cbn [andb] in *.
    + destruct (Z.ltb_spec (collectedBits s + 1) BUFFER_BITS) as [Hlt|Hge];
        unfold BUFFER_BITS in *; cbn [negb length] in *; lia.
    + cbn [length] in *. lia.
Qed.

(** X5: over any run of the driver every pushed bit is counted once: 256
    times the number of lines sent plus the fill counter grows by exactly
    the number of bits pushed, one hash is computed per line, and the fill
    counter is below 256 again when the run ends. *)
Theorem pushed_bits_accounted (sha : list Z -> list Z) (raws : list bool)
    (s : State) :
  between_iterations s ->
  exists accepted s',
    Sketch.drive sha raws s = Some (accepted, s') /\
    256 * Z.of_nat (count_calls is_line_break (world s')) + collectedBits s'
    = 256 * Z.of_nat (count_calls is_line_break (world s))
      + collectedBits s + Z.of_nat (length accepted) /\
    (count_calls is_sha256 (world s') - count_calls is_sha256 (world s)
     = count_calls is_line_break (world s')
       - count_calls is_line_break (world s))%nat /\
    0 <= collectedBits s' < BUFFER_BITS.
Proof.
  intros Hs. exists (fst (driven sha raws s)), (snd (driven sha raws s)).
  split; [rewrite (drive_driven sha raws s Hs);
          destruct (driven sha raws s); reflexivity |].
  destruct (driven_accounting sha raws s Hs) as (Hacc & Hsha & _).
  split; [exact Hacc |]. split; [exact Hsha |].
  apply (driven_between sha raws s Hs).
Qed.

Lemma pushed_bits_accounted_witness :
  between_iterations initial_state /\
  exists accepted s',
    Sketch.drive SHA256.sha256 (alternating_raw ++ [true; false]) initial_state
    = Some (accepted, s') /\
    256 * Z.of_nat (count_calls is_line_break (world s')) + collectedBits s'
    = Z.of_nat (length accepted).
Proof.
  split; [apply initial_between |].
  destruct (pushed_bits_accounted SHA256.sha256
              (alternating_raw ++ [true; false]) initial_state initial_between)
    as (accepted & s' & Hrun & Hacc & _).
  exists accepted, s'. split; [exact Hrun | exact Hacc].
Defined.

Lemma line_of_length sha input : length (line_of sha input) = 66%nat.
Proof.
  unfold line_of. rewrite length_app, hex_of_digest_length, digest_array_length.
  reflexivity.
Qed.

Lemma driven_lines sha raws : forall s,
  between_iterations s ->
  exists blocks,
    hashed_inputs (world (snd (driven sha raws s)))
    = hashed_inputs (world s) ++ blocks /\
    serial_stream (world (snd (driven sha raws s)))
    = serial_stream (world s) ++ flat_map (line_of sha) blocks /\
    Forall (fun block => length block = 32%nat) blocks.
Proof.
  induction raws as [|r raws IH]; intros s Hs.
  - exists []. cbn [driven snd flat_map]. rewrite !app_nil_r.
    repeat split. constructor.
  - cbn [driven snd].
    pose proof (iterated_between sha r s Hs) as Hs'.
    destruct (IH _ Hs') as (blocks & Hin & Hser & Hlen).
    destruct (iterated_outcome sha r s Hs) as (_ & Hser1 & Hin1 & _).
    rewrite Hin, Hser, Hin1, Hser1.
    destruct (filling r s).
    + exists (entropyBuffer (pushed r (with_hasLastBit false s)) :: blocks).
      cbn [flat_map]. rewrite <- !app_assoc. repeat split.
      constructor; [| exact Hlen].
      rewrite pushed_length. apply Hs.
    + exists blocks. rewrite !app_nil_r. repeat split. exact Hlen.
Qed.

(** X6: what the driver sends is made of whole lines only: over any run
    the bytes added to the serial stream are, for each buffer handed to
    the hash during the run and in that order, the 64 hexadecimal digits
    of its digest and the line break, 66 bytes per hashed buffer of 32
    bytes, with nothing before, between or after them. *)
Theorem serial_stream_is_lines (sha : list Z -> list Z) (raws : list bool)
    (s : State) :
  between_iterations s ->
  exists accepted s' blocks,
    Sketch.drive sha raws s = Some (accepted, s') /\
    hashed_inputs (world s') = hashed_inputs (world s) ++ blocks /\
    serial_stream (world s')
    = serial_stream (world s) ++ flat_map (line_of sha) blocks /\
    Forall (fun block => length block = 32%nat) blocks /\
    length (flat_map (line_of sha) blocks) = (66 * length blocks)%nat.
Proof.
  intros Hs. destruct (driven_lines sha raws s Hs) as (blocks & Hin & Hser & Hlen).
  exists (fst (driven sha raws s)), (snd (driven sha raws s)), blocks.
  split; [rewrite (drive_driven sha raws s Hs);
          destruct (driven sha raws s); reflexivity |].
  split; [exact Hin |]. split; [exact Hser |]. split; [exact Hlen |].
  clear. induction blocks as [|b blocks IH]; [reflexivity |].
  cbn [flat_map length]. rewrite length_app, line_of_length, IH. lia.
Qed.

Lemma serial_stream_is_lines_witness :
  between_iterations initial_state /\
  exists accepted s' blocks,
    Sketch.drive SHA256.sha256 (alternating_raw ++ alternating_raw)
      initial_state = Some (accepted, s') /\
    hashed_inputs (world s') = blocks /\
    serial_stream (world s') = flat_map (line_of SHA256.sha256) blocks.
Proof.
  split; [apply initial_between |].
  destruct (serial_stream_is_lines SHA256.sha256
              (alternating_raw ++ alternating_raw) initial_state
              initial_between)
    as (accepted & s' & blocks & Hrun & Hin & Hser & _).
  exists accepted, s', blocks. split; [exact Hrun |].
  split; [exact Hin | exact Hser].
Defined.

Lemma driven_von_neumann sha raws : forall s,
  between_iterations s ->
  hasLastBit s = false ->
  fst (driven sha raws s) = von_neumann raws /\
  pending (snd (driven sha raws s)) = unpaired raws.
Proof.
  induction raws as [|a|a b l IH] using list_pair_ind; intros s Hs Hh.
  - cbn [driven fst snd von_neumann]. unfold pending. rewrite Hh.
    split; reflexivity.
  - cbn [driven fst snd von_neumann].
    destruct (iterated_corrector sha a s) as (Hfst & Hh' & Hl' & _).
    unfold pushing in Hfst. rewrite Hh in Hfst, Hh', Hl'. cbn in Hfst, Hh'.
    rewrite Hfst. unfold pending. rewrite Hh', Hl'. split; reflexivity.
  - cbn [driven fst snd von_neumann].
    destruct (iterated_corrector sha a s) as (Hfst & Hh' & Hl' & _).
    unfold pushing in Hfst. rewrite Hh in Hfst, Hh', Hl'. cbn in Hfst, Hh'.
    pose proof (iterated_between sha a s Hs) as Hs1.
    set (s1 := snd (iterated sha a s)) in *.
    destruct (iterated_corrector sha b s1) as (Hfst2 & Hh2 & _).
    unfold pushing in Hfst2. rewrite Hh', Hl' in Hfst2. rewrite Hh' in Hh2.
    cbn in Hfst2, Hh2.
    pose proof (iterated_between sha b s1 Hs1) as Hs2.
    destruct (IH (snd (iterated sha b s1)) Hs2 Hh2) as [IH1 IH2].
    rewrite Hfst, Hfst2, IH1, IH2, unpaired_pair.
    destruct (Bool.eqb a b); split; reflexivity.
Qed.

Lemma von_neumann_length raws :
  (2 * length (von_neumann raws) <= length raws)%nat.
Proof.
  induction raws as [|a|a b l IH] using list_pair_ind;
    cbn [von_neumann length]; try lia.
  destruct (Bool.eqb a b); cbn [length]; lia.
Qed.

(** X7: the bits that the driver pushes are the von Neumann extraction of
    the raw bits it was fed, read in pairs from the first raw bit on; a
    raw bit left without partner stays pending. *)
Theorem drive_pushes_von_neumann (sha : list Z -> list Z) (raws : list bool)
    (s : State) :
  between_iterations s ->
  hasLastBit s = false ->
  exists s',
    Sketch.drive sha raws s = Some (von_neumann raws, s') /\
    pending s' = unpaired raws.
Proof.
  intros Hs Hh. rewrite (drive_driven sha raws s Hs).
  destruct (driven_von_neumann sha raws s Hs Hh) as [H1 H2].
  exists (snd (driven sha raws s)). rewrite <- H1.
  destruct (driven sha raws s); split; [reflexivity | exact H2].
Qed.

Lemma drive_pushes_von_neumann_witness :
  between_iterations initial_state /\
  hasLastBit initial_state = false /\
  exists s',
    Sketch.drive SHA256.sha256 [true; true; false; true; true; false; false]
      initial_state
    = Some ([true; false], s') /\
    pending s' = [false].
Proof.
  split; [apply initial_between |]. split; [reflexivity |].
  apply (drive_pushes_von_neumann SHA256.sha256
           [true; true; false; true; true; false; false] initial_state
           initial_between eq_refl).
Defined.

(** ** The hashed buffers hold the pushed bits *)

Lemma length_div_mod_256 (n : nat) :
  n = (256 * (n / 256) + n mod 256)%nat /\ (n mod 256 < 256)%nat.
Proof.
  split; [apply Nat.div_mod_eq | apply Nat.mod_upper_bound; lia].
Qed.

Lemma pushed_block_bits accepted r s :
  blocks_packed accepted s ->
  forall i, 0 <= i < 256 ->
    buffer_bit (entropyBuffer (pushed r (with_hasLastBit false s))) i
    = (i <? collectedBits s + 1)
      && nth (256 * (length accepted / 256) + Z.to_nat i)
             (accepted ++ [r]) false.
Proof.
  intros ((Hn & Hlen) & Hc & _ & Hbuf & _) i Hi.
  destruct (length_div_mod_256 (length accepted)) as [Hdm Hm].
  rewrite (buffer_bit_pushed r (with_hasLastBit false s) i Hn Hlen)
    by lia.
  change (collectedBits (with_hasLastBit false s)) with (collectedBits s).
  change (entropyBuffer (with_hasLastBit false s)) with (entropyBuffer s).
  rewrite (Hbuf i Hi).
  destruct (Z.eqb_spec i (collectedBits s)) as [->|Hne].
  - rewrite Z.ltb_irrefl. cbn [andb orb].
    destruct (Z.ltb_spec (collectedBits s) (collectedBits s + 1)); [|lia].
    cbn [andb]. rewrite Hc, Nat2Z.id.
    rewrite <- Hdm, nth_middle. reflexivity.
  - destruct (Z.ltb_spec i (collectedBits s)) as [Hlt|Hge];
      destruct (Z.ltb_spec i (collectedBits s + 1)); try lia; cbn [andb];
      try reflexivity.
    rewrite app_nth1 by lia. reflexivity.
Qed.

Lemma blocks_packed_step sha r accepted s :
  blocks_packed accepted s ->
  blocks_packed
    (accepted ++ match fst (iterated sha r s) with
                 | Some b => [b]
                 | None => []
                 end)
    (snd (iterated sha r s)).
Proof.
  intros HJ. pose proof HJ as (Hs & Hc & Hq & Hbuf & Hblocks).
  pose proof (pushed_block_bits accepted r s HJ) as Hpushed.
  pose proof (iterated_between sha r s Hs) as Hs'.
  destruct (length_div_mod_256 (length accepted)) as [Hdm Hm].
  destruct (iterated_outcome sha r s Hs) as (_ & _ & Hin & _).
  destruct Hs as [Hn Hlen]. unfold BUFFER_BITS in Hn.
  unfold filling in Hin.
  destruct (iterated_cases sha r s (conj Hn Hlen))
    as [(Hp & Hfst & Hc' & Hbuf' & _)
       |[(Hp & Hlt & Hfst & Hc' & Hbuf' & _)
        |(Hp & Heq & Hfst & Hc' & Hbuf' & _)]];
    rewrite Hp in Hin; cbn [andb] in Hin; rewrite Hfst;
    unfold BUFFER_BITS in *.
  - rewrite app_nil_r in *. unfold blocks_packed.
    rewrite Hc', Hbuf', Hin.
    split; [exact Hs' |]. split; [exact Hc |]. split; [exact Hq |].
    split; [exact Hbuf | exact Hblocks].
  - apply Z.ltb_lt in Hlt as Hlt'. rewrite Hlt' in Hin. cbn [negb] in Hin.
    rewrite app_nil_r in Hin.
    assert (length (accepted ++ [r]) = S (length accepted)) as Hlen1
      by (rewrite length_app; cbn [length]; lia).
    assert ((S (length accepted)) / 256 = length accepted / 256)%nat as Hq1.
    { symmetry. apply (Nat.div_unique _ 256 _ (S (length accepted mod 256))); lia. }
    assert ((S (length accepted)) mod 256 = S (length accepted mod 256))%nat
      as Hm1.
    { symmetry. apply (Nat.mod_unique _ 256 (length accepted / 256)); lia. }
    unfold blocks_packed. rewrite Hc', Hbuf', Hin, Hlen1, Hq1, Hm1.
    split; [exact Hs' |]. split; [lia |]. split; [exact Hq |].
    split; [exact Hpushed |].
    intros k block Hk. destruct (Hblocks k block Hk) as [Hl Hb].
    split; [exact Hl |]. intros i Hi. rewrite (Hb i Hi).
    apply lookup_lt_Some in Hk. rewrite app_nth1 by lia. reflexivity.
  - assert ((collectedBits s + 1 <? 256) = false) as Hge
      by (apply Z.ltb_ge; lia).
    rewrite Hge in Hin. cbn [negb] in Hin.
    assert (length (accepted ++ [r]) = S (length accepted)) as Hlen1
      by (rewrite length_app; cbn [length]; lia).
    assert ((S (length accepted)) / 256 = S (length accepted / 256))%nat
      as Hq1.
    { symmetry. apply (Nat.div_unique _ 256 _ 0); lia. }
    assert ((S (length accepted)) mod 256 = 0)%nat as Hm1.
    { symmetry. apply (Nat.mod_unique _ 256 (S (length accepted / 256))); lia. }
    unfold blocks_packed. rewrite Hc', Hbuf', Hin, Hlen1, Hq1, Hm1.
    split; [exact Hs' |]. split; [reflexivity |].
    split; [rewrite length_app, Hq; cbn [length]; lia |].
    split.
    { intros i Hi. rewrite buffer_bit_zero by lia.
      destruct (Z.ltb_spec i 0); [lia | reflexivity]. }
    intros k block Hk.
    destruct (Nat.lt_ge_cases k (length (hashed_inputs (world s))))
      as [Hold|Hnew].
    + rewrite lookup_app_l in Hk by exact Hold.
      destruct (Hblocks k block Hk) as [Hl Hb].
      split; [exact Hl |]. intros i Hi. rewrite (Hb i Hi).
      rewrite app_nth1 by lia. reflexivity.
    + rewrite lookup_app_r in Hk by exact Hnew.
      destruct (k - length (hashed_inputs (world s)))%nat as [|j] eqn:Hj;
        [| destruct j; discriminate Hk].
      assert (Some (entropyBuffer (pushed r (with_hasLastBit false s)))
              = Some block) as Hk' by exact Hk.
      assert (block = entropyBuffer (pushed r (with_hasLastBit false s)))
        as -> by congruence.
      split; [rewrite pushed_length; exact Hlen |].
      intros i Hi. rewrite (Hpushed i Hi).
      destruct (Z.ltb_spec i (collectedBits s + 1)); [|lia].
      cbn [andb]. replace k with (length accepted / 256)%nat by lia.
      reflexivity.
Qed.

Lemma blocks_packed_initial : blocks_packed [] initial_state.
Proof.
  split; [apply initial_between |]. split; [reflexivity |].
  split; [reflexivity |]. split.
  - intros i Hi. change (entropyBuffer initial_state) with (replicate 32 0).
    rewrite buffer_bit_zero by lia.
    change (collectedBits initial_state) with 0.
    destruct (Z.ltb_spec i 0); [lia | reflexivity].
  - intros k block Hk. destruct k; discriminate Hk.
Qed.

Lemma blocks_packed_driven sha raws : forall accepted s,
  blocks_packed accepted s ->
  blocks_packed (accepted ++ fst (driven sha raws s))
                (snd (driven sha raws s)).
Proof.
  induction raws as [|r raws IH]; intros accepted s HJ.
  - cbn [driven fst snd]. rewrite app_nil_r. exact HJ.
  - cbn [driven fst snd].
    pose proof (IH _ _ (blocks_packed_step sha r accepted s HJ)) as H.
    rewrite <- app_assoc in H.
    destruct (fst (iterated sha r s)); exact H.
Qed.

(** X8: along any run of the driver from the initial state the buffers
    handed to the hash are the pushed bits cut into blocks of 256 and
    packed least significant bit first: there is one hashed buffer of 32
    bytes per 256 pushed bits, bit [i] of the [k]-th one is the pushed
    bit number [256 k + i], and the buffer being filled holds the
    remaining bits at its first positions and zeros after them. *)
Theorem hashed_blocks_are_pushed_bits (sha : list Z -> list Z)
    (raws : list bool) :
  exists accepted s',
    Sketch.drive sha raws initial_state = Some (accepted, s') /\
    length (hashed_inputs (world s')) = (length accepted / 256)%nat /\
    collectedBits s' = Z.of_nat (length accepted mod 256) /\
    (forall k block, hashed_inputs (world s') !! k = Some block ->
       length block = 32%nat /\
       forall i, 0 <= i < 256 ->
         buffer_bit block i = nth (256 * k + Z.to_nat i) accepted false) /\
    (forall i, 0 <= i < 256 ->
       buffer_bit (entropyBuffer s') i
       = (i <? collectedBits s')
         && nth (256 * (length accepted / 256) + Z.to_nat i) accepted false).
Proof.
  exists (fst (driven sha raws initial_state)),
         (snd (driven sha raws initial_state)).
  split; [rewrite (drive_driven sha raws initial_state initial_between);
          destruct (driven sha raws initial_state); reflexivity |].
  pose proof (blocks_packed_driven sha raws [] initial_state
                blocks_packed_initial) as (_ & Hc & Hq & Hbuf & Hblocks).
  cbn [app] in *.
  split; [exact Hq |]. split; [exact Hc |]. split; [exact Hblocks | exact Hbuf].
Qed.

(** ** [packBitIntoBuffer] outside its intended use *)

(** X9: [packBitIntoBuffer] has no bounds check of its own.  Called with
    the fill counter at or above 256 on the buffer of 32 bytes, it stores
    outside the array when the bit is set, and when the bit is clear it
    stores nothing and still counts the bit, so that the counter passes
    the capacity. *)
Theorem packBitIntoBuffer_unchecked (s : State) :
  length (entropyBuffer s) = 32%nat ->
  BUFFER_BITS <= collectedBits s < UINT32_MOD - 1 ->
  packBitIntoBuffer true s = None /\
  packBitIntoBuffer false s
  = Some (tt, with_collectedBits (collectedBits s + 1) s).
Proof.
  unfold BUFFER_BITS, UINT32_MOD. intros Hlen Hn.
  unfold packBitIntoBuffer.
  rewrite !(bind_Some _ _ s (collectedBits s) s) by reflexivity. cbv zeta.
  split.
  - assert (in_bounds (collectedBits s / 8) (entropyBuffer s) = false) as Hout.
    { unfold in_bounds. rewrite Hlen. apply andb_false_intro2, Z.ltb_ge.
      apply Z.div_le_lower_bound; lia. }
    unfold bind at 1. unfold bind at 1. unfold load_entropyBuffer.
    rewrite Hout. reflexivity.
  - unfold bind, ret, modify, UINT32_MOD.
    rewrite Z.mod_small by lia. reflexivity.
Qed.

Lemma packBitIntoBuffer_unchecked_witness :
  length (entropyBuffer full_state) = 32%nat /\
  BUFFER_BITS <= collectedBits full_state < UINT32_MOD - 1 /\
  packBitIntoBuffer true full_state = None /\
  collectedBits <$> (snd <$> packBitIntoBuffer false full_state) = Some 257.
Proof.
  assert (BUFFER_BITS <= collectedBits full_state < UINT32_MOD - 1) as Hn
    by (vm_compute; split; [discriminate | reflexivity]).
  split; [reflexivity |]. split; [exact Hn |].
  destruct (packBitIntoBuffer_unchecked full_state eq_refl Hn) as [Ht Hf].
  split; [exact Ht |]. rewrite Hf. reflexivity.
Defined.

(** X10: [packBitIntoBuffer] only ever sets bits.  Pushing bits into a
    buffer of 32 bytes with any content, from any fill level that leaves
    room for them, turns bit [i] of the buffer into the disjunction of
    its former value and the pushed bit that belongs at position [i], and
    leaves the bits outside the pushed range as they were: a bit that
    was set stays set, so the packing is right only on a zeroed buffer. *)
Theorem packBitIntoBuffer_only_sets (bits : list bool) (s : State) :
  0 <= collectedBits s ->
  collectedBits s + Z.of_nat (length bits) <= BUFFER_BITS ->
  length (entropyBuffer s) = 32%nat ->
  exists s',
    push_all bits s = Some (tt, s') /\
    collectedBits s' = collectedBits s + Z.of_nat (length bits) /\
    (forall i, 0 <= i ->
       buffer_bit (entropyBuffer s) i = true ->
       buffer_bit (entropyBuffer s') i = true) /\
    (forall i, collectedBits s <= i < collectedBits s + Z.of_nat (length bits) ->
       buffer_bit (entropyBuffer s') i
       = buffer_bit (entropyBuffer s) i
         || nth (Z.to_nat (i - collectedBits s)) bits false) /\
    (forall i, 0 <= i ->
       ~ collectedBits s <= i < collectedBits s + Z.of_nat (length bits) ->
       buffer_bit (entropyBuffer s') i = buffer_bit (entropyBuffer s) i).
Proof.
  intros Hn Hroom Hlen.
  destruct (push_all_layout bits s Hn Hroom Hlen)
    as (s' & Hrun & Hcount & _ & Hbits).
  exists s'. split; [exact Hrun |]. split; [exact Hcount |].
  split; [| split].
  - intros i Hi Hset. rewrite (Hbits i Hi), Hset.
    destruct ((collectedBits s <=? i)
              && (i <? collectedBits s + Z.of_nat (length bits)));
      reflexivity.
  - intros i Hi. rewrite (Hbits i) by lia.
    destruct (Z.leb_spec (collectedBits s) i); [|lia].
    destruct (Z.ltb_spec i (collectedBits s + Z.of_nat (length bits)));
      [reflexivity | lia].
  - intros i Hi Hout. rewrite (Hbits i Hi).
    destruct (Z.leb_spec (collectedBits s) i);
      destruct (Z.ltb_spec i (collectedBits s + Z.of_nat (length bits)));
      cbn [andb]; try reflexivity; lia.
Qed.

Lemma packBitIntoBuffer_only_sets_witness :
  0 <= collectedBits (with_collectedBits 8 full_state) /\
  collectedBits (with_collectedBits 8 full_state)
    + Z.of_nat (length [false; false]) <= BUFFER_BITS /\
  length (entropyBuffer (with_collectedBits 8 full_state)) = 32%nat /\
  exists s',
    push_all [false; false] (with_collectedBits 8 full_state) = Some (tt, s') /\
    buffer_bit (entropyBuffer s') 8 = true.
Proof.
  assert (0 <= collectedBits (with_collectedBits 8 full_state)) as H0
    by (vm_compute; discriminate).
  assert (collectedBits (with_collectedBits 8 full_state)
            + Z.of_nat (length [false; false]) <= BUFFER_BITS) as H1
    by (vm_compute; discriminate).
  split; [exact H0 |]. split; [exact H1 |]. split; [reflexivity |].
  destruct (packBitIntoBuffer_only_sets [false; false]
              (with_collectedBits 8 full_state) H0 H1 eq_refl)
    as (s' & Hrun & _ & Hkeep & _).
  exists s'. split; [exact Hrun |].
  apply Hkeep; [lia | reflexivity].
Defined.

(** ** Reading a line back *)

Lemma decode_hex_byte d rest :
  is_byte d ->
  decode_hex (hex_of_byte d ++ rest)
  = match decode_hex rest with
    | Some bytes => Some (d :: bytes)
    | None => None
    end.
Proof.
  intros Hd.
  assert ((match hex_value (hex_upper_digit (d / 16)),
                 hex_value (hex_upper_digit (d mod 16)) with
           | Some h, Some l => 16 * h + l =? d
           | _, _ => false
           end) = true) as H.
  { apply (for_all_bytes
             (fun d => match hex_value (hex_upper_digit (d / 16)),
                             hex_value (hex_upper_digit (d mod 16)) with
                       | Some h, Some l => 16 * h + l =? d
                       | _, _ => false
                       end)); [vm_compute; reflexivity | exact Hd]. }
  cbn [hex_of_byte app decode_hex].
  destruct (hex_value (hex_upper_digit (d / 16))) as [h|]; [|discriminate H].
  destruct (hex_value (hex_upper_digit (d mod 16))) as [l|]; [|discriminate H].
  apply Z.eqb_eq in H. rewrite H. reflexivity.
Qed.

Lemma decode_hex_of_digest digest :
  Forall is_byte digest -> decode_hex (hex_of_digest digest) = Some digest.
Proof.
  induction 1 as [|d l Hd _ IH]; [reflexivity |].
  unfold hex_of_digest in *. cbn [flat_map].
  rewrite (decode_hex_byte d _ Hd), IH. reflexivity.
Qed.

(** X11: the line that either variant sends for a digest of 32 bytes can
    be read back: its first 64 characters, taken two by two as
    hexadecimal digits, give the bytes of the digest in order.  The zero
    put in front of the values below 0x10 is what makes this work: two
    digests are sent as the same line only if they are the same. *)
Theorem printed_digest_reads_back (digest : list Z) (s : State) :
  length digest = 32%nat ->
  Forall is_byte digest ->
  (exists s',
      Sketch.print_digest digest s = Some (tt, s') /\
      decode_hex (take 64 (serial_stream (added (world s) (world s'))))
      = Some digest) /\
  (exists s',
      Variant.print_digest digest s = Some (tt, s') /\
      decode_hex (take 64 (serial_stream (added (world s) (world s'))))
      = Some digest) /\
  (forall digest', length digest' = 32%nat -> Forall is_byte digest' ->
     hex_of_digest digest' = hex_of_digest digest -> digest' = digest).
Proof.
  intros Hlen Hb.
  assert (take 64 (hex_of_digest digest ++ Print_println_terminator)
          = hex_of_digest digest) as Htake.
  { apply take_app_length'. rewrite hex_of_digest_length, Hlen. reflexivity. }
  split; [| split].
  - eexists. split; [apply sketch_print_digest_after |].
    rewrite added_after_calls, serial_stream_observe.
    rewrite sketch_print_calls_stream, Htake by assumption.
    apply decode_hex_of_digest, Hb.
  - eexists. split; [apply variant_print_digest_after; assumption |].
    rewrite added_after_calls, serial_stream_observe.
    rewrite variant_print_calls_stream, Htake by assumption.
    apply decode_hex_of_digest, Hb.
  - intros digest' _ Hb' Heq.
    apply decode_hex_of_digest in Hb, Hb'. congruence.
Qed.

Lemma printed_digest_reads_back_witness :
  length (SHA256.sha256 (replicate 32 85)) = 32%nat /\
  Forall is_byte (SHA256.sha256 (replicate 32 85)) /\
  exists s',
    Sketch.print_digest (SHA256.sha256 (replicate 32 85)) initial_state
    = Some (tt, s') /\
    decode_hex (take 64 (serial_stream (world s')))
    = Some (SHA256.sha256 (replicate 32 85)).
Proof.
  assert (Forall is_byte (SHA256.sha256 (replicate 32 85))) as Hb.
  { apply forallb_is_byte. vm_compute. reflexivity. }
  split; [reflexivity |]. split; [exact Hb |].
  destruct (printed_digest_reads_back (SHA256.sha256 (replicate 32 85))
              initial_state eq_refl Hb) as ((s' & Hrun & Hback) & _).
  exists s'. split; [exact Hrun | exact Hback].
Defined.

(** ** The driver of the second variant *)

Lemma variant_drained_eq sha s :
  (32 <= length (entropyBuffer s))%nat ->
  Variant.hashAndOutput sha s = Some (tt, variant_drained sha s).
Proof.
  intros Hlen. unfold variant_drained.
  destruct (Z.ltb_spec (collectedBits s) BUFFER_BITS) as [H|H].
  - apply variant_hashAndOutput_short, H.
  - apply variant_hashAndOutput_full; assumption.
Qed.

Lemma variant_loop_on_iterated sha rawBit s :
  between_iterations s ->
  Variant.loop_on sha rawBit s = Some (variant_iterated sha rawBit s).
Proof.
  intros [Hn Hlen]. unfold Variant.loop_on, variant_iterated.
  destruct (hasLastBit s) eqn:Hh.
  - rewrite (bind_Some _ _ _ _ _ (vonNeumannCorrector_armed _ _ _ Hh)).
    destruct (Bool.eqb (lastBit s) rawBit); cbn [fst snd]; [reflexivity |].
    rewrite (bind_Some _ _ _ rawBit (with_hasLastBit false s))
      by reflexivity.
    rewrite (bind_Some _ _ _ _ _
               (packBitIntoBuffer_below rawBit (with_hasLastBit false s)
                  Hn Hlen)).
    assert (32 <= length (entropyBuffer
                            (pushed rawBit (with_hasLastBit false s))))%nat
      as Hlen' by (rewrite pushed_length; cbn [entropyBuffer with_hasLastBit];
                   lia).
    rewrite (bind_Some _ _ _ _ _ (variant_drained_eq sha _ Hlen')).
    reflexivity.
  - rewrite (bind_Some _ _ _ _ _ (vonNeumannCorrector_idle _ _ _ Hh)).
    reflexivity.
Qed.

Lemma variant_drive_cons sha r l s :
  Variant.drive sha (r :: l) s
  = match Variant.loop_on sha r s with
    | Some (p, s1) =>
        match Variant.drive sha l s1 with
        | Some (ps, s2) =>
            Some (match p with Some b => b :: ps | None => ps end, s2)
        | None => None
        end
    | None => None
    end.
Proof.
  cbn [Variant.drive]. unfold bind, ret.
  destruct (Variant.loop_on sha r s) as [[p s1]|]; [|reflexivity].
  destruct (Variant.drive sha l s1) as [[ps s2]|]; reflexivity.
Qed.

Lemma hashed_inputs_variant_calls sha s :
  hashed_inputs (map (observe s) (variant_calls sha s))
  = [take 32 (entropyBuffer s)].
Proof. reflexivity. Qed.

Lemma serial_stream_variant_calls sha s :
  serial_stream (map (observe s) (variant_calls sha s))
  = line_of sha (take 32 (entropyBuffer s)).
Proof.
  rewrite serial_stream_observe. unfold variant_calls. cbv zeta.
  cbn [flat_map serial_bytes app]. apply (variant_calls_stream sha s).
Qed.

Lemma delay_outcome us s :
  serial_stream (world (after_calls [DelayMicroseconds us] s))
  = serial_stream (world s) /\
  hashed_inputs (world (after_calls [DelayMicroseconds us] s))
  = hashed_inputs (world s).
Proof.
  rewrite after_calls_world, serial_stream_app, hashed_inputs_app.
  cbn. rewrite !app_nil_r. split; reflexivity.
Qed.

Lemma same_outcome_pushed bit s1 s2 :
  same_outcome s1 s2 -> same_outcome (pushed bit s1) (pushed bit s2).
Proof.
  intros (Hb & Hc & Hl & Hh & Ha & Hser & Hin).
  unfold same_outcome. rewrite !pushed_world.
  unfold pushed. rewrite Hb, Hc.
  destruct bit; cbn [entropyBuffer collectedBits lastBit hasLastBit adcSeed
                     with_collectedBits with_entropyBuffer];
    repeat split; assumption.
Qed.

Lemma same_outcome_drained sha s1 s2 :
  same_outcome s1 s2 ->
  same_outcome (drained sha s1) (variant_drained sha s2).
Proof.
  intros Hsame. pose proof Hsame as (Hb & Hc & Hl & Hh & Ha & Hser & Hin).
  unfold drained, variant_drained. rewrite <- Hc.
  destruct (collectedBits s1 <? BUFFER_BITS); [exact Hsame |].
  unfold same_outcome.
  change (world (reset_buffer (after_calls (sketch_calls sha s1) s1)))
    with (world (after_calls (sketch_calls sha s1) s1)).
  change (world (reset_buffer (after_calls (variant_calls sha s2) s2)))
    with (world (after_calls (variant_calls sha s2) s2)).
  rewrite !after_calls_world, !serial_stream_app, !hashed_inputs_app.
  rewrite serial_stream_sketch_calls, serial_stream_variant_calls.
  rewrite hashed_inputs_sketch_calls, hashed_inputs_variant_calls.
  cbn [entropyBuffer collectedBits lastBit hasLastBit adcSeed reset_buffer
       with_collectedBits with_entropyBuffer after_calls with_world].
  rewrite Hb, Hser, Hin. repeat split; assumption.
Qed.

Lemma iterated_same sha rawBit s1 s2 :
  same_outcome s1 s2 ->
  fst (iterated sha rawBit s1) = fst (variant_iterated sha rawBit s2) /\
  same_outcome (snd (iterated sha rawBit s1))
               (snd (variant_iterated sha rawBit s2)).
Proof.
  intros Hsame. pose proof Hsame as (Hb & Hc & Hl & Hh & Ha & Hser & Hin).
  unfold iterated, variant_iterated. rewrite <- Hh, <- Hl.
  destruct (hasLastBit s1); [destruct (Bool.eqb (lastBit s1) rawBit)|];
    cbn [fst snd]; (split; [reflexivity |]).
  - unfold same_outcome.
    destruct (delay_outcome 50 (with_hasLastBit false s1)) as [-> ->].
    repeat split; assumption.
  - assert (same_outcome (with_hasLastBit false s1) (with_hasLastBit false s2))
      as H0 by (repeat split; assumption).
    pose proof (same_outcome_drained sha _ _
                  (same_outcome_pushed rawBit _ _ H0))
      as (Hb' & Hc' & Hl' & Hh' & Ha' & Hser' & Hin').
    unfold same_outcome.
    destruct (delay_outcome 50
                (drained sha (pushed rawBit (with_hasLastBit false s1))))
      as [-> ->].
    destruct (delay_outcome 100
                (variant_drained sha (pushed rawBit (with_hasLastBit false s2))))
      as [-> ->].
    repeat split; assumption.
  - unfold same_outcome.
    destruct (delay_outcome 50 (with_hasLastBit true (with_lastBit rawBit s1)))
      as [-> ->].
    repeat split; assumption.
Qed.

Lemma same_outcome_between s1 s2 :
  same_outcome s1 s2 -> between_iterations s1 -> between_iterations s2.
Proof.
  intros (Hb & Hc & _) [Hn Hlen]. split; congruence.
Qed.

Lemma variant_drive_driven sha raws : forall s1 s2,
  between_iterations s1 ->
  same_outcome s1 s2 ->
  Variant.drive sha raws s2 = Some (variant_driven sha raws s2) /\
  fst (driven sha raws s1) = fst (variant_driven sha raws s2) /\
  same_outcome (snd (driven sha raws s1)) (snd (variant_driven sha raws s2)).
Proof.
  induction raws as [|r raws IH]; intros s1 s2 Hs Hsame.
  - split; [reflexivity |]. split; [reflexivity | exact Hsame].
  - pose proof (same_outcome_between _ _ Hsame Hs) as Hs2.
    destruct (iterated_same sha r s1 s2 Hsame) as [Hfst Hsame'].
    destruct (IH _ _ (iterated_between sha r s1 Hs) Hsame')
      as (Hrun & Hacc & Hout).
    rewrite variant_drive_cons, (variant_loop_on_iterated sha r s2 Hs2).
    cbn [driven variant_driven fst snd].
    destruct (variant_iterated sha r s2) as [p s2'] eqn:Hit.
    cbn [fst snd] in *. rewrite Hrun.
    destruct (variant_driven sha raws s2') as [ps s2''] eqn:Hdr.
    cbn [fst snd] in *. rewrite Hfst, Hacc.
    split; [reflexivity |]. split; [reflexivity | exact Hout].
Qed.

Lemma same_outcome_refl s : same_outcome s s.
Proof. repeat split. Qed.

(** X12: the two variants of the sketch do the same work.  Fed the same
    raw bits from the same state between two iterations, the driver with
    the [Serial.print] loop and a pause in every iteration and the driver
    with the [sprintf] line and a pause after each pushed bit push the
    same bits, hash the same buffers, send the same bytes and end with
    the same globals. *)
Theorem variants_agree (sha : list Z -> list Z) (raws : list bool)
    (s : State) :
  between_iterations s ->
  exists accepted s1 s2,
    Sketch.drive sha raws s = Some (accepted, s1) /\
    Variant.drive sha raws s = Some (accepted, s2) /\
    same_outcome s1 s2.
Proof.
  intros Hs.
  destruct (variant_drive_driven sha raws s s Hs (same_outcome_refl s))
    as (Hrun & Hacc & Hout).
  exists (fst (driven sha raws s)), (snd (driven sha raws s)),
         (snd (variant_driven sha raws s)).
  split; [rewrite (drive_driven sha raws s Hs);
          destruct (driven sha raws s); reflexivity |].
  split; [rewrite Hrun, Hacc; destruct (variant_driven sha raws s);
          reflexivity | exact Hout].
Qed.

Lemma variants_agree_witness :
  between_iterations initial_state /\
  exists accepted s1 s2,
    Sketch.drive SHA256.sha256 alternating_raw initial_state
    = Some (accepted, s1) /\
    Variant.drive SHA256.sha256 alternating_raw initial_state
    = Some (accepted, s2) /\
    serial_stream (world s1) = serial_stream (world s2).
Proof.
  split; [apply initial_between |].
  destruct (variants_agree SHA256.sha256 alternating_raw initial_state
              initial_between)
    as (accepted & s1 & s2 & H1 & H2 & Hsame).
  exists accepted, s1, s2. split; [exact H1 |]. split; [exact H2 |].
  apply Hsame.
Defined.

(** ** The rate of the generator *)

(** X13: the driver cannot produce output faster than one pushed bit per
    two raw bits and one line per 512 raw bits: over any run from the
    initial state twice the number of pushed bits, and 512 times the
    number of lines sent, are at most the number of raw bits fed. *)
Theorem output_rate_bound (sha : list Z -> list Z) (raws : list bool) :
  exists accepted s',
    Sketch.drive sha raws initial_state = Some (accepted, s') /\
    (2 * length accepted <= length raws)%nat /\
    (512 * count_calls is_line_break (world s') <= length raws)%nat.
Proof.
  exists (fst (driven sha raws initial_state)),
         (snd (driven sha raws initial_state)).
  split; [rewrite (drive_driven sha raws initial_state initial_between);
          destruct (driven sha raws initial_state); reflexivity |].
  destruct (driven_von_neumann sha raws initial_state initial_between eq_refl)
    as [Hvn _].
  pose proof (von_neumann_length raws) as Hlen. rewrite <- Hvn in Hlen.
  destruct (driven_accounting sha raws initial_state initial_between)
    as (Hacc & _).
  pose proof (driven_between sha raws initial_state initial_between)
    as [Hn _].
  change (count_calls is_line_break (world initial_state)) with 0%nat in Hacc.
  change (collectedBits initial_state) with 0 in Hacc.
  unfold BUFFER_BITS in Hn. split; [exact Hlen | lia].
Qed.
